(** * VORTEX-V512 v1.0: a shallow embedding of [vortex_v512_v1.py]

    The Python module keeps two module-level NumPy arrays ([VORTEX_IV] and
    [RC]) and hashes a byte string by mutating a third array in place.  The
    embedding keeps that shape: NumPy arrays live in a heap of objects
    addressed by references, the functions of the module are computations in
    a state-and-exception monad over that heap, and [uint64] values are
    integers of [Z] whose wrap-around is written out. *)

From Stdlib Require Import ZArith Lia.
From Stdlib.Strings Require Import Ascii Byte.
From Stdlib.Strings Require String.
Import String.StringSyntax.
Delimit Scope string_scope with string.
From stdpp Require Import base tactics option list numbers.

Local Open Scope Z_scope.

(** ** 64-bit lanes *)

Module Lane.

(** The literal [0xFFFFFFFFFFFFFFFF]. *)
Definition mask64 : Z := 0xFFFFFFFFFFFFFFFF.

(** What a [uint64] register keeps of an integer result. *)
Definition wrap64 (z : Z) : Z := z mod 2 ^ 64.

(** [uint64 << n]: the bits shifted past position 63 are lost. *)
Definition shl64 (x n : Z) : Z := wrap64 (Z.shiftl x n).

(** [uint64 + uint64]: addition wraps. *)
Definition add64 (x y : Z) : Z := wrap64 (x + y).

Definition is_u64 (x : Z) : Prop := 0 <= x < 2 ^ 64.

(** [def rotl(x, r)]:
    [((x << (r & 63)) | (x >> ((64 - r) & 63))) & 0xFFFFFFFFFFFFFFFF],
    compiled for [uint64] arguments.  [&] on a possibly negative [64 - r]
    is two's complement, as [Z.land] is. *)
Definition rotl (x r : Z) : Z :=
  Z.land (Z.lor (shl64 x (Z.land r 63)) (Z.shiftr x (Z.land (64 - r) 63)))
         mask64.

(** The rotation primitive in the words of the specification: shift
    amounts reduced modulo 64, the result reduced to 64-bit width. *)
Definition rotateLeft (x r : Z) : Z :=
  (Z.lor (Z.shiftl x (r mod 64)) (Z.shiftr x ((64 - r) mod 64))) mod 2 ^ 64.

End Lane.

Import Lane.


(** ** Exceptions, the heap of arrays and the monad of the module *)

Module Py.

(** The exceptions the operations used by the module can raise. *)
Inductive exn : Type :=
| IndexError   (* subscript out of range *)
| ValueError   (* [bytes] of an integer outside [range(256)],
                  [np.frombuffer] of a buffer of the wrong size *)
| NameError.   (* a reference that is bound to no object *)

Inductive result (A : Type) : Type :=
| Ok (a : A)
| Raise (e : exn).
Global Arguments Ok {A} a.
Global Arguments Raise {A} e.

(** A reference to an array object; the heap holds the arrays, the
    newest last. *)
Definition ref : Type := nat.
Abbreviation heap := (list (list Z)).

(** A computation reads and writes the heap and may raise. *)
Definition M (A : Type) : Type := heap -> result (A * heap).

Global Instance M_ret : MRet M := fun A a h => Ok (a, h).

Global Instance M_bind : MBind M := fun A B k m h =>
  match m h with
  | Ok (a, h') => k a h'
  | Raise e => Raise e
  end.

(** A step that touches no array. *)
Definition lift {A : Type} (x : result A) : M A := fun h =>
  match x with
  | Ok a => Ok (a, h)
  | Raise e => Raise e
  end.

Global Instance result_ret : MRet result := fun A a => Ok a.

Global Instance result_bind : MBind result := fun A B k x =>
  match x with
  | Ok a => k a
  | Raise e => Raise e
  end.

(** [a[i]] for an array object [a] and [0 <= i]. *)
Definition getitem (a : ref) (i : nat) : M Z := fun h =>
  match h !! a with
  | None => Raise NameError
  | Some arr =>
      match arr !! i with
      | Some v => Ok (v, h)
      | None => Raise IndexError
      end
  end.

(** [a[i] = v], in place. *)
Definition setitem (a : ref) (i : nat) (v : Z) : M unit := fun h =>
  match h !! a with
  | None => Raise NameError
  | Some arr =>
      if decide (i < length arr)%nat
      then Ok (tt, <[a := <[i := v]> arr]> h)
      else Raise IndexError
  end.

(** [a.copy()]: a new array object with the contents of [a]. *)
Definition copy (a : ref) : M ref := fun h =>
  match h !! a with
  | None => Raise NameError
  | Some arr => Ok (length h, h ++ [arr])
  end.

(** The elements of [a[:n]]. *)
Definition getslice (a : ref) (n : nat) : M (list Z) := fun h =>
  match h !! a with
  | None => Raise NameError
  | Some arr => Ok (take n arr, h)
  end.

(** [w[i]] for an array that is only ever read, passed by value. *)
Definition index (w : list Z) (i : nat) : M Z :=
  lift (match w !! i with Some v => Ok v | None => Raise IndexError end).

(** [for x in l: body(x)] *)
Fixpoint for_each {A : Type} (l : list A) (body : A -> M unit) : M unit :=
  match l with
  | [] => mret tt
  | x :: l' => body x ;; for_each l' body
  end.

(** [for i in range(n): body(i)] *)
Definition for_range (n : nat) (body : nat -> M unit) : M unit :=
  for_each (seq 0 n) body.

End Py.

Import Py.

(** ** The module *)

(** The two module-level names, bound at import time to the first two
    array objects of the heap. *)
Definition VORTEX_IV : ref := 0%nat.
Definition RC : ref := 1%nat.

(** [np.array([...], dtype=np.uint64)] of the initialization vectors. *)
Definition VORTEX_IV_array : list Z :=
  [ 0x6a09e667f3bcc908; 0xbb67ae8584caa73b; 0x3c6ef372fe94f82b; 0xa54ff53a5f1d36f1;
    0x510e527fade682d1; 0x9b05688c2b3e6c1f; 0x1f83d9abfb41bd6b; 0x5be0cd19137e2179;
    0x428a2f98d728ae22; 0x7137449123ef65cd; 0xb5c0fbcfe4d3b2f; 0xe9b5dba58189dbbc;
    0x3956c25bf348b538; 0x59f111f1b605d019; 0x923f82a4af194f9b; 0xab1c5ed5da6d8118 ].

(** [np.array([...], dtype=np.uint64)] of the round constants. *)
Definition RC_array : list Z :=
  [ 0x243f6a8885a308d3; 0x13198a2e03707344; 0xa4093822299f31d0; 0x082efa98ec4e6c89;
    0x452821e638d01377; 0xbe5466cf34e90c6c; 0xc0ac29b7c97c50dd; 0x3f84d5b5b5470917;
    0x9216d5d98979fb1b; 0xd1310ba698dfb5ac; 0x2ff72e1e2138591c; 0xb62d3e9b13c1bcc9 ].

(** The heap once the module is imported. *)
Definition module_heap : heap := [VORTEX_IV_array; RC_array].

(** [offset = (r % 7) + 1] *)
Definition offset (r : nat) : nat := (r mod 7 + 1)%nat.

(** [target = (i + offset) % 16] *)
Definition target (r i : nat) : nat := ((i + offset r) mod 16)%nat.

(** [def vortex_p(s)] *)
Definition vortex_p (s : ref) : M unit :=
  for_range 12 (fun r =>
    (* s[0] ^= RC[r] *)
    (x ← getitem s 0; c ← getitem RC r; setitem s 0 (Z.lxor x c));;
    (* s[15] ^= rotl(RC[r], r + 7) *)
    (x ← getitem s 15; c ← getitem RC r;
     setitem s 15 (Z.lxor x (rotl c (Z.of_nat r + 7))));;
    for_range 16 (fun i =>
      (* s[i] = (s[i] + s[target]) & 0xFFFFFFFFFFFFFFFF *)
      (x ← getitem s i; y ← getitem s (target r i);
       setitem s i (Z.land (add64 x y) mask64));;
      (* s[target] ^= s[i] *)
      (y ← getitem s (target r i); x ← getitem s i;
       setitem s (target r i) (Z.lxor y x));;
      (* s[target] = rotl(s[target], 19 + i + r) *)
      (y ← getitem s (target r i);
       setitem s (target r i) (rotl y (19 + Z.of_nat i + Z.of_nat r))));;
    for_range 15 (fun i =>
      (* s[i+1] ^= rotl(s[i], 11) *)
      (y ← getitem s (i + 1); x ← getitem s i;
       setitem s (i + 1) (Z.lxor y (rotl x 11))))).

(** [def vortex_core_absorb(state, words)]; [words] is never written and
    is passed by value. *)
Definition vortex_core_absorb (state : ref) (words : list Z) : M unit :=
  let num_blocks := (length words / 8)%nat in
  for_range num_blocks (fun i =>
    let idx := (i * 8)%nat in
    for_range 8 (fun j =>
      (* state[j] ^= words[idx + j] *)
      (x ← getitem state j; w ← index words (idx + j);
       setitem state j (Z.lxor x w)));;
    vortex_p state).

(** *** Bytes, padding and the word stream *)

(** The integer a byte is when a [bytes] object is turned into a list. *)
Definition Z_of_byte (b : byte) : Z := Z.of_N (Byte.to_N b).

(** [l[-1] |= m]: index [-1] stands for [len(l) - 1]; the element is read
    and written back. *)
Definition ior_last (l : list Z) (m : Z) : result (list Z) :=
  match length l with
  | O => Raise IndexError
  | S n =>
      match l !! n with
      | Some b => Ok (<[n := Z.lor b m]> l)
      | None => Raise IndexError
      end
  end.

(** [bytes(l)] of a list of integers: each must be in [range(256)]. *)
Fixpoint bytes (l : list Z) : result (list byte) :=
  match l with
  | [] => Ok []
  | z :: l' =>
      match (if 0 <=? z then Byte.of_N (Z.to_N z) else None) with
      | None => Raise ValueError
      | Some b => bs ← bytes l'; mret (b :: bs)
      end
  end.

(** One big-endian unsigned integer out of its bytes, the first byte the
    most significant. *)
Definition from_bytes_big (chunk : list byte) : Z :=
  fold_left (fun acc b => acc * 256 + Z_of_byte b) chunk 0.

(** [np.frombuffer(buf, dtype='>u8').astype(np.uint64)]: the buffer size
    must be a multiple of the element size; element [k] is made of the
    bytes [8k .. 8k+7]. *)
Definition frombuffer_be_u8 (buf : list byte) : result (list Z) :=
  if decide (length buf mod 8 = 0)%nat
  then Ok (map (fun k => from_bytes_big (take 8 (drop (8 * k) buf)))
               (seq 0 (length buf / 8)))
  else Raise ValueError.

(** [pad_len = (64 - (len(padded) % 64)) % 64] *)
Definition pad_len (padded : list byte) : nat :=
  ((64 - length padded mod 64) mod 64)%nat.

(** [padded = data + b'\x06'; padded += b'\x00' * pad_len] *)
Definition padded (data : list byte) : list byte :=
  let padded := data ++ [x06] in
  padded ++ repeat x00 (pad_len padded).

(** [p_list = list(padded); p_list[-1] |= 0x80] *)
Definition p_list (data : list byte) : result (list Z) :=
  ior_last (map Z_of_byte (padded data)) 0x80.

(** [words = np.frombuffer(bytes(p_list), dtype='>u8').astype(np.uint64)] *)
Definition words (data : list byte) : result (list Z) :=
  l ← p_list data; buf ← bytes l; frombuffer_be_u8 buf.

(** *** Formatting *)

Definition hex_digit (d : Z) : ascii :=
  nth (Z.to_nat d)
      (String.list_ascii_of_string "0123456789abcdef"%string) "0"%char.

(** The digits of [format(x, 'x')] for [0 <= x]: as many as [x] needs, at
    least one, the most significant first. *)
Definition hex_digits (x : Z) : list ascii :=
  map (fun k => hex_digit (Z.land (Z.shiftr x (4 * Z.of_nat k)) 15))
      (rev (seq 0 (Z.to_nat (Z.log2 x / 4 + 1)))).

(** [f'{x:016x}'] for [0 <= x]: zeros on the left up to 16 characters. *)
Definition format_016x (x : Z) : String.string :=
  let digits := hex_digits x in
  String.string_of_list_ascii
    (repeat "0"%char (16 - length digits) ++ digits).

(** [def vortex_v512_v1(data: bytes) -> str]; the padding and the
    conversion to words are the functions above, [state[:8]] is read from
    the heap. *)
Definition vortex_v512_v1 (data : list byte) : M String.string :=
  state ← copy VORTEX_IV;
  words ← lift (words data);
  vortex_core_absorb state words;;
  vortex_p state;;
  lanes ← getslice state 8;
  mret (String.concat ""%string (map format_016x lanes)).

(** A call of the function from the outside: the digest, or the exception. *)
Definition digest (h : heap) (data : list byte) : result String.string :=
  match vortex_v512_v1 data h with
  | Ok (d, _) => Ok d
  | Raise e => Raise e
  end.

(** ** The specification's description of the algorithm

    Pure functions on lists of lanes, written after the text of the
    specification; the theorems below compare them with the module. *)

Module Spec.

(** Round [r], step 1: constant injection. *)
Definition inject (rc : list Z) (r : nat) (st : list Z) : list Z :=
  let st := <[0%nat := Z.lxor (st !!! 0%nat) (rc !!! r)]> st in
  <[15%nat := Z.lxor (st !!! 15%nat)
                     (rotateLeft (rc !!! r) (Z.of_nat r + 7))]> st.

(** Round [r], step 2, iteration [i] of the butterfly. *)
Definition mix (r i : nat) (st : list Z) : list Z :=
  let offset := (r mod 7 + 1)%nat in
  let target := ((i + offset) mod 16)%nat in
  let st := <[i := (st !!! i + st !!! target) mod 2 ^ 64]> st in
  let st := <[target := Z.lxor (st !!! target) (st !!! i)]> st in
  <[target := rotateLeft (st !!! target)
                         ((19 + Z.of_nat i + Z.of_nat r) mod 64)]> st.

(** Round [r], step 3, iteration [i] of the diffusion. *)
Definition diffuse (i : nat) (st : list Z) : list Z :=
  <[(i + 1)%nat := Z.lxor (st !!! (i + 1)%nat) (rotateLeft (st !!! i) 11)]> st.

(** Apply [step 0], [step 1], ..., [step (n - 1)], in this order. *)
Definition ascending (n : nat) (step : nat -> list Z -> list Z)
    (st : list Z) : list Z :=
  foldl (fun st i => step i st) st (seq 0 n).

Definition round (rc : list Z) (r : nat) (st : list Z) : list Z :=
  ascending 15 diffuse (ascending 16 (mix r) (inject rc r st)).

(** The permutation engine: rounds 0 to 11. *)
Definition permutation (rc : list Z) (st : list Z) : list Z :=
  ascending 12 (round rc) st.

(** Padding: the number of zero bytes after the domain separator, for an
    input of [n] bytes. *)
Definition padLen (n : nat) : nat := ((64 - (n + 1) mod 64) mod 64)%nat.

(** The padded buffer, bytes as integers: the input, the byte [0x06],
    [padLen] zero bytes, and the final byte ORed with [0x80]. *)
Definition padded_buffer (x : list Z) : list Z :=
  let buf := x ++ [0x06] ++ repeat 0 (padLen (length x)) in
  alter (fun b => Z.lor b 0x80) (length buf - 1)%nat buf.

(** Eight bytes as a big-endian unsigned 64-bit integer. *)
Definition be64 (chunk : list Z) : Z :=
  match chunk with
  | [b0; b1; b2; b3; b4; b5; b6; b7] =>
      b0 * 2 ^ 56 + b1 * 2 ^ 48 + b2 * 2 ^ 40 + b3 * 2 ^ 32 +
      b4 * 2 ^ 24 + b5 * 2 ^ 16 + b6 * 2 ^ 8 + b7
  | _ => 0
  end.

(** The consecutive chunks of [n] elements of a list. *)
Definition chunks {A : Type} (n : nat) (l : list A) : list (list A) :=
  map (fun k => take n (drop (n * k) l)) (seq 0 (length l / n)).

Definition word_stream (buf : list Z) : list Z := map be64 (chunks 8 buf).

(** The 8 words of a block XORed into lanes 0..7 respectively. *)
Definition xor_block (st blk : list Z) : list Z :=
  zip_with Z.lxor (take 8 st) blk ++ drop 8 st.

(** Absorption: for each block, XOR it in, then permute once. *)
Definition absorb (rc : list Z) (st : list Z) (blocks : list (list Z))
    : list Z :=
  foldl (fun st blk => permutation rc (xor_block st blk)) st blocks.

(** The state the digest is read from: all the blocks absorbed, then one
    more permutation. *)
Definition final_state (rc iv : list Z) (ws : list Z) : list Z :=
  permutation rc (absorb rc iv (chunks 8 ws)).

(** The lowercase hexadecimal digit of a value 0..15, by its character
    code: ['0'] to ['9'] are the characters 48 to 57, ['a'] to ['f'] the
    characters 97 to 102. *)
Definition hex_char (d : Z) : ascii :=
  ascii_of_nat (Z.to_nat (if d <? 10 then 48 + d else 87 + d)).

(** A lane as 16 hexadecimal digits, the most significant first: digit
    number [k] from the right is the value [(x / 16^k) mod 16]. *)
Definition hex16 (x : Z) : list ascii :=
  map (fun k => hex_char ((x / 16 ^ k) mod 16))
      [15; 14; 13; 12; 11; 10; 9; 8; 7; 6; 5; 4; 3; 2; 1; 0].

Definition lower_hex (c : ascii) : Prop :=
  c ∈ String.list_ascii_of_string "0123456789abcdef"%string.

End Spec.

(** ** Predicates of the statements *)

(** A state as the module has it: 16 lanes, each a [uint64]. *)
Definition state16 (st : list Z) : Prop :=
  length st = 16%nat /\ Forall is_u64 st.

Definition bijective_on (f : list Z -> list Z) : Prop :=
  (forall st, state16 st -> state16 (f st)) /\
  (forall a b, state16 a -> state16 b -> f a = f b -> a = b) /\
  (forall t, state16 t -> exists a, state16 a /\ f a = t).

(** [updates s rc m f]: on a heap where [s] is a 16-lane array and [RC] is
    bound to [rc], the statement [m] raises nothing, replaces the contents
    of [s] by [f] of them and leaves every other object alone. *)
Definition updates (s : ref) (rc : list Z) (m : M unit)
    (f : list Z -> list Z) : Prop :=
  forall (h : heap) (st : list Z),
    h !! s = Some st -> length st = 16%nat -> h !! RC = Some rc ->
    m h = Ok (tt, <[s := f st]> h) /\ length (f st) = 16%nat.

(** [writes_only s m]: whenever [m] returns, every array other than [s] is
    as it was, and no object was created. *)
Definition writes_only {A : Type} (s : ref) (m : M A) : Prop :=
  forall (h h' : heap) (x : A),
    m h = Ok (x, h') ->
    length h' = length h /\ forall a, a ≠ s -> h' !! a = h !! a.

(** The state [vortex_v512_v1] reads the digest from, for the tables [iv]
    and [rc], in the specification's terms. *)
Definition squeezed (iv rc : list Z) (data : list byte) : list Z :=
  Spec.final_state rc iv
    (Spec.word_stream (Spec.padded_buffer (map Z_of_byte data))).

(** A heap on which the module has been imported: the two module-level
    names are bound to the constant tables. *)
Definition imported (h : heap) : Prop :=
  h !! VORTEX_IV = Some VORTEX_IV_array /\ h !! RC = Some RC_array.

(** A heap where a third array holds a copy of the initialization vectors,
    as [vortex_v512_v1] has it right after [VORTEX_IV.copy()]. *)
Definition working_heap : heap := module_heap ++ [VORTEX_IV_array].

(** Replace the powers of two with literal exponents by their values. *)
Ltac eval_pow2 :=
  repeat match goal with
         | |- context [2 ^ ?n] =>
             let v := eval vm_compute in (2 ^ n) in change (2 ^ n) with v
         end.

(** ** Properties of the lane arithmetic *)

Section LaneFacts.

Lemma mask64_ones : mask64 = Z.ones 64.
Proof. reflexivity. Qed.

Lemma land_63 (a : Z) : Z.land a 63 = a mod 64.
Proof. change 63 with (Z.ones 6). rewrite Z.land_ones by lia. reflexivity. Qed.

Lemma land_mask64 (a : Z) : Z.land a mask64 = a mod 2 ^ 64.
Proof. rewrite mask64_ones, Z.land_ones by lia. reflexivity. Qed.

Lemma wrap64_range (z : Z) : is_u64 (wrap64 z).
Proof. unfold is_u64, wrap64. apply Z.mod_pos_bound. lia. Qed.

Lemma wrap64_small (z : Z) : is_u64 z -> wrap64 z = z.
Proof. unfold is_u64, wrap64. intros H. apply Z.mod_small. exact H. Qed.

Lemma wrap64_testbit (z j : Z) :
  0 <= j -> Z.testbit (wrap64 z) j = if j <? 64 then Z.testbit z j else false.
Proof.
  intros Hj. unfold wrap64. destruct (Z.ltb_spec j 64).
  - apply Z.mod_pow2_bits_low. lia.
  - apply Z.mod_pow2_bits_high. lia.
Qed.

Lemma u64_testbit_high (x j : Z) : is_u64 x -> 64 <= j -> Z.testbit x j = false.
Proof.
  intros Hx Hj. rewrite <- (wrap64_small x Hx), wrap64_testbit by lia.
  destruct (Z.ltb_spec j 64); [lia | reflexivity].
Qed.

Lemma u64_of_bits (x : Z) :
  0 <= x -> (forall j, 64 <= j -> Z.testbit x j = false) -> is_u64 x.
Proof.
  intros H0 Hhi. rewrite <- (Z.mod_small x (2 ^ 64)); [apply wrap64_range |].
  split; [exact H0 |].
  destruct (Z.eq_dec x 0) as [-> | Hnz]; [lia |].
  apply Z.log2_lt_pow2; [lia |].
  destruct (Z.lt_ge_cases (Z.log2 x) 64) as [Hlt | Hge]; [exact Hlt |].
  specialize (Hhi (Z.log2 x) Hge).
  rewrite Z.bit_log2 in Hhi by lia. discriminate.
Qed.

Lemma lxor_u64 (a b : Z) : is_u64 a -> is_u64 b -> is_u64 (Z.lxor a b).
Proof.
  intros Ha Hb. apply u64_of_bits.
  - apply Z.lxor_nonneg. unfold is_u64 in *. lia.
  - intros j Hj. rewrite Z.lxor_spec, !u64_testbit_high by assumption.
    reflexivity.
Qed.

Lemma lxor_cancel_r (a b c : Z) : Z.lxor a c = Z.lxor b c -> a = b.
Proof.
  intros H. apply (f_equal (fun z => Z.lxor z c)) in H.
  rewrite !Z.lxor_assoc, Z.lxor_nilpotent, !Z.lxor_0_r in H. exact H.
Qed.

(** The code and the specification's formula agree on every integer. *)
Lemma rotl_rotateLeft (x r : Z) : rotl x r = rotateLeft x r.
Proof.
  unfold rotl, rotateLeft, shl64, wrap64.
  rewrite land_mask64, !land_63.
  apply Z.bits_inj'. intros j Hj.
  destruct (Z.ltb_spec j 64).
  - rewrite !Z.mod_pow2_bits_low, !Z.lor_spec, Z.mod_pow2_bits_low by lia.
    reflexivity.
  - rewrite !Z.mod_pow2_bits_high by lia. reflexivity.
Qed.

Lemma rotl_range (x r : Z) : is_u64 (rotl x r).
Proof. unfold rotl. rewrite land_mask64. apply wrap64_range. Qed.

(** Bit [j] of the rotated word is bit [j - r] (modulo 64) of the word. *)
Lemma rotl_testbit (x r j : Z) :
  is_u64 x -> 0 <= j < 64 ->
  Z.testbit (rotl x r) j = Z.testbit x ((j - r) mod 64).
Proof.
  intros Hx Hj. unfold rotl, shl64.
  rewrite land_mask64, !land_63.
  fold (wrap64 (Z.lor (wrap64 (Z.shiftl x (r mod 64)))
                      (Z.shiftr x ((64 - r) mod 64)))).
  rewrite wrap64_testbit, Z.lor_spec, wrap64_testbit by lia.
  destruct (Z.ltb_spec j 64); [| lia].
  pose proof (Z.mod_pos_bound r 64 ltac:(lia)) as Hr.
  pose proof (Z.mod_pos_bound (64 - r) 64 ltac:(lia)) as Hr'.
  rewrite Z.shiftl_spec, Z.shiftr_spec by lia.
  destruct (Z.eq_dec (r mod 64) 0) as [E0 | E0].
  - assert (E1 : (64 - r) mod 64 = 0).
    { rewrite Zminus_mod, Z.mod_same, E0 by lia. reflexivity. }
    assert (E2 : (j - r) mod 64 = j).
    { rewrite Zminus_mod, E0, Z.sub_0_r, Z.mod_mod by lia.
      apply Z.mod_small. lia. }
    rewrite E0, E1, E2, Z.sub_0_r, Z.add_0_r.
    apply Bool.orb_diag.
  - assert (E1 : (64 - r) mod 64 = 64 - r mod 64).
    { symmetry. apply (Z.mod_unique_pos _ _ (- (r / 64))); [lia |].
      pose proof (Z.div_mod r 64 ltac:(lia)). lia. }
    rewrite E1.
    destruct (Z.lt_ge_cases j (r mod 64)) as [Hlt | Hge].
    + rewrite (Z.testbit_neg_r x (j - r mod 64)) by lia. simpl.
      f_equal. apply (Z.mod_unique_pos _ _ (- (r / 64) - 1)); [lia |].
      pose proof (Z.div_mod r 64 ltac:(lia)). lia.
    + rewrite (u64_testbit_high x (j + (64 - r mod 64))) by (assumption || lia).
      rewrite Bool.orb_false_r. f_equal.
      apply (Z.mod_unique_pos _ _ (- (r / 64))); [lia |].
      pose proof (Z.div_mod r 64 ltac:(lia)). lia.
Qed.

Lemma rotl_0 (x : Z) : is_u64 x -> rotl x 0 = x.
Proof.
  intros Hx. apply Z.bits_inj'. intros j Hj.
  destruct (Z.lt_ge_cases j 64).
  - rewrite rotl_testbit by (assumption || lia).
    rewrite Z.sub_0_r, Z.mod_small by lia. reflexivity.
  - rewrite !u64_testbit_high by (apply rotl_range || assumption).
    reflexivity.
Qed.

(** Rotating by [r] and then by [-r] gives the word back. *)
Lemma rotl_rotl_opp (x r : Z) : is_u64 x -> rotl (rotl x r) (- r) = x.
Proof.
  intros Hx. apply Z.bits_inj'. intros j Hj.
  destruct (Z.lt_ge_cases j 64).
  - rewrite rotl_testbit by (apply rotl_range || lia).
    rewrite rotl_testbit by (assumption || apply Z.mod_pos_bound; lia).
    f_equal. rewrite Zminus_mod_idemp_l.
    replace (j - - r - r) with j by lia. apply Z.mod_small. lia.
  - rewrite !u64_testbit_high by (apply rotl_range || assumption).
    reflexivity.
Qed.

End LaneFacts.

(** ** Running the monad *)

Section Run.

Context {B : Type}.

Lemma run_bind {A : Type} (m : M A) (k : A -> M B) (h h' : heap) (a : A) :
  m h = Ok (a, h') -> (m ≫= k) h = k a h'.
Proof. intros E. unfold mbind, M_bind. rewrite E. reflexivity. Qed.

Lemma run_getitem (h : heap) (a : ref) (arr : list Z) (i : nat)
    (k : Z -> M B) :
  h !! a = Some arr -> (i < length arr)%nat ->
  (getitem a i ≫= k) h = k (arr !!! i) h.
Proof.
  intros Ha Hi. apply run_bind. unfold getitem. rewrite Ha.
  destruct (lookup_lt_is_Some_2 arr i Hi) as [v Hv].
  rewrite Hv. rewrite (list_lookup_total_correct _ _ _ Hv). reflexivity.
Qed.

Lemma run_setitem (h : heap) (a : ref) (arr : list Z) (i : nat) (v : Z)
    (k : unit -> M B) :
  h !! a = Some arr -> (i < length arr)%nat ->
  (setitem a i v ≫= k) h = k tt (<[a := <[i := v]> arr]> h).
Proof.
  intros Ha Hi. apply run_bind. unfold setitem. rewrite Ha.
  rewrite decide_True by exact Hi. reflexivity.
Qed.

Lemma run_index (h : heap) (w : list Z) (i : nat) (k : Z -> M B) :
  (i < length w)%nat -> (index w i ≫= k) h = k (w !!! i) h.
Proof.
  intros Hi. apply run_bind. unfold index, lift.
  destruct (lookup_lt_is_Some_2 w i Hi) as [v Hv].
  rewrite Hv. rewrite (list_lookup_total_correct _ _ _ Hv). reflexivity.
Qed.

Lemma run_getslice (h : heap) (a : ref) (arr : list Z) (n : nat)
    (k : list Z -> M B) :
  h !! a = Some arr -> (getslice a n ≫= k) h = k (take n arr) h.
Proof.
  intros Ha. apply run_bind. unfold getslice. rewrite Ha. reflexivity.
Qed.

End Run.

Lemma run_ret_r (m : M unit) (h : heap) : (m ≫= fun _ => mret tt) h = m h.
Proof.
  unfold mbind, M_bind. destruct (m h) as [[[] h'] | e]; reflexivity.
Qed.

(** ** Statements that update one array *)

Section Updates.

Variable s : ref.
Variable rc : list Z.
Hypothesis s_not_RC : s ≠ RC.

Lemma heap_after_write (h : heap) (st st' : list Z) :
  h !! s = Some st ->
  <[s := st']> h !! s = Some st' /\ <[s := st']> h !! RC = h !! RC.
Proof.
  intros Hs. split.
  - apply list_lookup_insert_eq. eapply lookup_lt_Some. exact Hs.
  - apply list_lookup_insert_ne. exact s_not_RC.
Qed.

Lemma updates_seq (m1 m2 : M unit) (f g : list Z -> list Z) :
  updates s rc m1 f -> updates s rc m2 g ->
  updates s rc (m1 ;; m2) (fun st => g (f st)).
Proof.
  intros H1 H2 h st Hs Hlen Hrc.
  destruct (H1 h st Hs Hlen Hrc) as [E1 L1].
  destruct (heap_after_write h st (f st) Hs) as [Hs' Hrc'].
  rewrite Hrc in Hrc'.
  destruct (H2 _ _ Hs' L1 Hrc') as [E2 L2].
  split; [| exact L2].
  rewrite (run_bind _ _ _ _ _ E1), E2, list_insert_insert_eq. reflexivity.
Qed.

Lemma updates_for_each (l : list nat) (body : nat -> M unit)
    (f : nat -> list Z -> list Z) :
  (forall i, i ∈ l -> updates s rc (body i) (f i)) ->
  updates s rc (for_each l body) (fun st => foldl (fun st i => f i st) st l).
Proof.
  induction l as [| i l IH]; intros Hbody.
  - intros h st Hs Hlen Hrc. simpl. split; [| exact Hlen].
    unfold mret, M_ret. rewrite list_insert_id by exact Hs. reflexivity.
  - simpl. apply (updates_seq (body i) (for_each l body) (f i)
                   (fun st => foldl (fun st i => f i st) st l)).
    + apply Hbody. left.
    + apply IH. intros j Hj. apply Hbody. right. exact Hj.
Qed.

(** [s[c] = F(s[a], s[b])] *)
Lemma updates_lane2 (a b c : nat) (F : Z -> Z -> Z) :
  (a < 16)%nat -> (b < 16)%nat -> (c < 16)%nat ->
  updates s rc (x ← getitem s a; y ← getitem s b; setitem s c (F x y))
          (fun st => <[c := F (st !!! a) (st !!! b)]> st).
Proof.
  intros Ha Hb Hc h st Hs Hlen Hrc.
  split; [| rewrite length_insert; exact Hlen].
  rewrite (run_getitem _ _ st), (run_getitem _ _ st) by (assumption || lia).
  rewrite <- (run_ret_r (setitem s c _)).
  rewrite (run_setitem _ _ st) by (assumption || lia). reflexivity.
Qed.

(** [s[a] = F(s[a])] *)
Lemma updates_lane1 (a : nat) (F : Z -> Z) :
  (a < 16)%nat ->
  updates s rc (y ← getitem s a; setitem s a (F y))
          (fun st => <[a := F (st !!! a)]> st).
Proof.
  intros Ha h st Hs Hlen Hrc.
  split; [| rewrite length_insert; exact Hlen].
  rewrite (run_getitem _ _ st) by (assumption || lia).
  rewrite <- (run_ret_r (setitem s a _)).
  rewrite (run_setitem _ _ st) by (assumption || lia). reflexivity.
Qed.

(** [s[a] = F(s[a], RC[r])] *)
Lemma updates_lane_rc (a r : nat) (F : Z -> Z -> Z) :
  (a < 16)%nat -> (r < length rc)%nat ->
  updates s rc (x ← getitem s a; c ← getitem RC r; setitem s a (F x c))
          (fun st => <[a := F (st !!! a) (rc !!! r)]> st).
Proof.
  intros Ha Hr h st Hs Hlen Hrc.
  split; [| rewrite length_insert; exact Hlen].
  rewrite (run_getitem _ _ st), (run_getitem _ _ rc) by (assumption || lia).
  rewrite <- (run_ret_r (setitem s a _)).
  rewrite (run_setitem _ _ st) by (assumption || lia). reflexivity.
Qed.

(** [s[a] = F(s[a], w[k])] for an array [w] passed by value. *)
Lemma updates_lane_index (a k : nat) (w : list Z) (F : Z -> Z -> Z) :
  (a < 16)%nat -> (k < length w)%nat ->
  updates s rc (x ← getitem s a; c ← index w k; setitem s a (F x c))
          (fun st => <[a := F (st !!! a) (w !!! k)]> st).
Proof.
  intros Ha Hk h st Hs Hlen Hrc.
  split; [| rewrite length_insert; exact Hlen].
  rewrite (run_getitem _ _ st), run_index by (assumption || lia).
  rewrite <- (run_ret_r (setitem s a _)).
  rewrite (run_setitem _ _ st) by (assumption || lia). reflexivity.
Qed.

Lemma updates_ext (m : M unit) (f g : list Z -> list Z) :
  updates s rc m f -> (forall st, length st = 16%nat -> f st = g st) ->
  updates s rc m g.
Proof.
  intros Hm Hfg h st Hs Hlen Hrc.
  rewrite <- (Hfg st Hlen). apply Hm; assumption.
Qed.

End Updates.

(** ** The permutation engine is the specification's permutation *)

Lemma rotl_mod64 (x r : Z) : rotl x (r mod 64) = rotl x r.
Proof.
  unfold rotl. rewrite !land_63, Z.mod_mod, Zminus_mod_idemp_r by lia.
  reflexivity.
Qed.

Lemma foldl_ext_in {A X : Type} (f g : A -> X -> A) (l : list X) (a : A) :
  (forall x b, x ∈ l -> f b x = g b x) -> foldl f a l = foldl g a l.
Proof.
  revert a. induction l as [| x l IH]; intros a Hfg; [reflexivity |].
  simpl. rewrite (Hfg x a) by left. apply IH.
  intros y b Hy. apply Hfg. right. exact Hy.
Qed.

Lemma elem_of_seq_0 (n i : nat) : i ∈ seq 0 n -> (i < n)%nat.
Proof. rewrite elem_of_seq. lia. Qed.

Lemma target_lt (r i : nat) : (target r i < 16)%nat.
Proof. unfold target. apply Nat.mod_upper_bound. lia. Qed.

Lemma land_add64 (a b : Z) : Z.land (add64 a b) mask64 = (a + b) mod 2 ^ 64.
Proof.
  unfold add64, wrap64. rewrite land_mask64, Z.mod_mod by lia. reflexivity.
Qed.

Section PermutationRefines.

Variable s : ref.
Variable rc : list Z.
Hypothesis s_not_RC : s ≠ RC.
Hypothesis rc_12 : length rc = 12%nat.

Lemma vortex_p_updates : updates s rc (vortex_p s) (Spec.permutation rc).
Proof.
  unfold vortex_p, for_range.
  apply (updates_for_each s rc s_not_RC _ _ (Spec.round rc)).
  intros r Hr%elem_of_seq_0.
  apply (updates_ext s rc _ (fun st =>
    foldl (fun st i => Spec.diffuse i st)
      (foldl (fun st i => Spec.mix r i st)
         (<[15%nat := Z.lxor (<[0%nat := Z.lxor (st !!! 0%nat) (rc !!! r)]> st !!! 15%nat)
                             (rotl (rc !!! r) (Z.of_nat r + 7))]>
            (<[0%nat := Z.lxor (st !!! 0%nat) (rc !!! r)]> st))
         (seq 0 16))
      (seq 0 15))).
  2: { intros st _. unfold Spec.round, Spec.ascending, Spec.inject.
       rewrite rotl_rotateLeft. reflexivity. }
  apply (updates_seq s rc s_not_RC _ _
           (fun st => <[0%nat := Z.lxor (st !!! 0%nat) (rc !!! r)]> st)
           (fun st =>
              foldl (fun st i => Spec.diffuse i st)
                (foldl (fun st i => Spec.mix r i st)
                   (<[15%nat := Z.lxor (st !!! 15%nat)
                                       (rotl (rc !!! r) (Z.of_nat r + 7))]> st)
                   (seq 0 16))
                (seq 0 15))).
  { apply (updates_lane_rc s rc s_not_RC 0 r Z.lxor); lia. }
  apply (updates_seq s rc s_not_RC _ _
           (fun st => <[15%nat := Z.lxor (st !!! 15%nat)
                                         (rotl (rc !!! r) (Z.of_nat r + 7))]> st)
           (fun st =>
              foldl (fun st i => Spec.diffuse i st)
                (foldl (fun st i => Spec.mix r i st) st (seq 0 16))
                (seq 0 15))).
  { apply (updates_lane_rc s rc s_not_RC 15 r
             (fun x c => Z.lxor x (rotl c (Z.of_nat r + 7)))); lia. }
  apply (updates_seq s rc s_not_RC _ _
           (fun st => foldl (fun st i => Spec.mix r i st) st (seq 0 16))
           (fun st => foldl (fun st i => Spec.diffuse i st) st (seq 0 15))).
  - apply (updates_for_each s rc s_not_RC _ _ (Spec.mix r)).
    intros i Hi%elem_of_seq_0. pose proof (target_lt r i) as Ht.
    apply (updates_ext s rc _ (fun st =>
      (fun st => <[target r i := rotl (st !!! target r i)
                                      (19 + Z.of_nat i + Z.of_nat r)]> st)
        ((fun st => <[target r i := Z.lxor (st !!! target r i) (st !!! i)]> st)
           (<[i := Z.land (add64 (st !!! i) (st !!! target r i)) mask64]> st)))).
    2: { intros st _. unfold Spec.mix. cbv beta zeta.
         fold (offset r). fold (target r i).
         rewrite land_add64, <- rotl_rotateLeft, rotl_mod64. reflexivity. }
    apply (updates_seq s rc s_not_RC _ _
             (fun st => <[i := Z.land (add64 (st !!! i) (st !!! target r i))
                                      mask64]> st)
             (fun st =>
                (fun st => <[target r i := rotl (st !!! target r i)
                                                (19 + Z.of_nat i + Z.of_nat r)]> st)
                  (<[target r i := Z.lxor (st !!! target r i) (st !!! i)]> st))).
    { apply (updates_lane2 s rc s_not_RC i (target r i) i
               (fun x y => Z.land (add64 x y) mask64)); lia. }
    apply (updates_seq s rc s_not_RC _ _
             (fun st => <[target r i := Z.lxor (st !!! target r i) (st !!! i)]> st)
             (fun st => <[target r i := rotl (st !!! target r i)
                                             (19 + Z.of_nat i + Z.of_nat r)]> st)).
    { apply (updates_lane2 s rc s_not_RC (target r i) i (target r i) Z.lxor); lia. }
    apply (updates_lane1 s rc s_not_RC (target r i)
             (fun y => rotl y (19 + Z.of_nat i + Z.of_nat r))); lia.
  - apply (updates_for_each s rc s_not_RC _ _ Spec.diffuse).
    intros i Hi%elem_of_seq_0.
    apply (updates_ext s rc _ (fun st =>
      <[(i + 1)%nat := Z.lxor (st !!! (i + 1)%nat) (rotl (st !!! i) 11)]> st)).
    2: { intros st _. unfold Spec.diffuse. rewrite rotl_rotateLeft.
         reflexivity. }
    apply (updates_lane2 s rc s_not_RC (i + 1) i (i + 1)
             (fun y x => Z.lxor y (rotl x 11))); lia.
Qed.

(** Running [vortex_p] on a heap with a 16-lane array at [s]. *)
Lemma vortex_p_run (h : heap) (st : list Z) :
  h !! s = Some st -> length st = 16%nat -> h !! RC = Some rc ->
  vortex_p s h = Ok (tt, <[s := Spec.permutation rc st]> h).
Proof. intros Hs Hlen Hrc. apply vortex_p_updates; assumption. Qed.

End PermutationRefines.

(** ** The permutation is a bijection of the 16-lane states *)

Section Bijections.

Lemma Forall_u64_lane (l : list Z) (j : nat) :
  Forall is_u64 l -> is_u64 (l !!! j).
Proof.
  intros Hl. destruct (l !! j) as [v |] eqn:E.
  - rewrite (list_lookup_total_correct _ _ _ E).
    eapply Forall_lookup_1; eassumption.
  - rewrite list_lookup_total_alt, E. change (is_u64 1).
    unfold is_u64. lia.
Qed.

Lemma state16_lane (st : list Z) (j : nat) : state16 st -> is_u64 (st !!! j).
Proof. intros [_ Hst]. apply Forall_u64_lane. exact Hst. Qed.

Lemma state16_insert (st : list Z) (k : nat) (v : Z) :
  state16 st -> is_u64 v -> state16 (<[k := v]> st).
Proof.
  intros [Hlen Hst] Hv. split.
  - rewrite length_insert. exact Hlen.
  - destruct (decide (k < length st)%nat) as [Hk | Hk].
    + apply Forall_insert; assumption.
    + rewrite list_insert_ge by lia. exact Hst.
Qed.

Lemma insert_lookup_total_id (st : list Z) (k : nat) :
  <[k := st !!! k]> st = st.
Proof.
  destruct (st !! k) as [v |] eqn:E.
  - rewrite (list_lookup_total_correct _ _ _ E). apply list_insert_id, E.
  - apply list_insert_ge. apply lookup_ge_None. exact E.
Qed.

Lemma bijective_ext (f g : list Z -> list Z) :
  (forall st, f st = g st) -> bijective_on f -> bijective_on g.
Proof.
  intros E (Hwf & Hinj & Hsur). split; [| split].
  - intros st Hst. rewrite <- E. apply Hwf, Hst.
  - intros a b Ha Hb Hab. rewrite <- !E in Hab. apply Hinj; assumption.
  - intros t Ht. destruct (Hsur t Ht) as (a & Ha & Hfa).
    exists a. rewrite <- E. split; assumption.
Qed.

Lemma bijective_compose (f g : list Z -> list Z) :
  bijective_on f -> bijective_on g -> bijective_on (fun st => g (f st)).
Proof.
  intros (Fwf & Finj & Fsur) (Gwf & Ginj & Gsur). split; [| split].
  - intros st Hst. apply Gwf, Fwf, Hst.
  - intros a b Ha Hb Hab. apply Finj; [assumption .. |].
    apply Ginj; [apply Fwf, Ha | apply Fwf, Hb | exact Hab].
  - intros t Ht. destruct (Gsur t Ht) as (u & Hu & Hgu).
    destruct (Fsur u Hu) as (a & Ha & Hfa).
    exists a. split; [exact Ha |]. rewrite Hfa. exact Hgu.
Qed.

Lemma bijective_foldl (l : list nat) (step : nat -> list Z -> list Z) :
  (forall i, i ∈ l -> bijective_on (step i)) ->
  bijective_on (fun st => foldl (fun st i => step i st) st l).
Proof.
  induction l as [| i l IH]; intros Hstep.
  - split; [| split]; simpl; eauto.
  - simpl.
    apply (bijective_compose (step i)
             (fun st => foldl (fun st i => step i st) st l)).
    + apply Hstep. left.
    + apply IH. intros j Hj. apply Hstep. right. exact Hj.
Qed.

(** One lane is replaced by a value computed from its old value by a
    bijection of the 64-bit words that the other lanes select. *)
Lemma bijective_lane (k : nat) (phi : list Z -> Z -> Z) :
  (k < 16)%nat ->
  (forall st v x, phi (<[k := v]> st) x = phi st x) ->
  (forall st x, state16 st -> is_u64 x -> is_u64 (phi st x)) ->
  (forall st x y, state16 st -> is_u64 x -> is_u64 y ->
                  phi st x = phi st y -> x = y) ->
  (forall st y, state16 st -> is_u64 y ->
                exists x, is_u64 x /\ phi st x = y) ->
  bijective_on (fun st => <[k := phi st (st !!! k)]> st).
Proof.
  intros Hk Hind Hrange Hinj Hsur. split; [| split].
  - intros st Hst. apply state16_insert; [exact Hst |].
    apply Hrange; [exact Hst | apply state16_lane, Hst].
  - intros a b Ha Hb Hab.
    assert (Hlen : length a = length b)
      by (destruct Ha as [-> _], Hb as [-> _]; reflexivity).
    assert (Hother : forall j, j ≠ k -> a !! j = b !! j).
    { intros j Hj. apply (f_equal (fun l => l !! j)) in Hab.
      rewrite !list_lookup_insert_ne in Hab by congruence. exact Hab. }
    assert (Eb : b = <[k := b !!! k]> a).
    { apply list_eq. intros j. destruct (decide (j = k)) as [-> | Hj].
      - rewrite list_lookup_insert_eq by (destruct Ha; lia).
        apply list_lookup_lookup_total_lt. destruct Hb; lia.
      - rewrite list_lookup_insert_ne by congruence. symmetry.
        apply Hother, Hj. }
    assert (Ek : phi a (a !!! k) = phi a (b !!! k)).
    { apply (f_equal (fun l => l !!! k)) in Hab.
      rewrite !list_lookup_total_insert_eq in Hab
        by (destruct Ha, Hb; lia).
      rewrite Hab. rewrite Eb at 1. apply Hind. }
    apply Hinj in Ek;
      [| exact Ha | apply state16_lane, Ha | apply state16_lane, Hb].
    rewrite Eb, <- Ek. symmetry. apply insert_lookup_total_id.
  - intros t Ht.
    destruct (Hsur t (t !!! k) Ht (state16_lane t k Ht)) as (x & Hx & Ex).
    exists (<[k := x]> t). split; [apply state16_insert; assumption |].
    rewrite list_lookup_total_insert_eq by (destruct Ht; lia).
    rewrite Hind, Ex, list_insert_insert_eq.
    apply insert_lookup_total_id.
Qed.

(** The three kinds of lane bijections of the engine. *)

Lemma lxor_bijective (c : Z) : is_u64 c ->
  (forall x, is_u64 x -> is_u64 (Z.lxor x c)) /\
  (forall x y, Z.lxor x c = Z.lxor y c -> x = y) /\
  (forall y, is_u64 y -> exists x, is_u64 x /\ Z.lxor x c = y).
Proof.
  intros Hc. split; [| split].
  - intros x Hx. apply lxor_u64; assumption.
  - intros x y. apply lxor_cancel_r.
  - intros y Hy. exists (Z.lxor y c). split; [apply lxor_u64; assumption |].
    rewrite Z.lxor_assoc, Z.lxor_nilpotent, Z.lxor_0_r. reflexivity.
Qed.

Lemma add_mod_bijective (c : Z) : is_u64 c ->
  (forall x, is_u64 ((x + c) mod 2 ^ 64)) /\
  (forall x y, is_u64 x -> is_u64 y ->
               (x + c) mod 2 ^ 64 = (y + c) mod 2 ^ 64 -> x = y) /\
  (forall y, is_u64 y -> exists x, is_u64 x /\ (x + c) mod 2 ^ 64 = y).
Proof.
  intros Hc. split; [| split].
  - intros x. apply wrap64_range.
  - intros x y Hx Hy E. unfold is_u64 in *.
    change (2 ^ 64) with 18446744073709551616 in *.
    Z.div_mod_to_equations. lia.
  - intros y Hy. exists ((y - c) mod 2 ^ 64).
    split; [apply wrap64_range |].
    rewrite Zplus_mod_idemp_l. replace (y - c + c) with y by lia.
    apply Z.mod_small, Hy.
Qed.

Lemma rotateLeft_bijective (n : Z) :
  (forall x, is_u64 (rotateLeft x n)) /\
  (forall x y, is_u64 x -> is_u64 y ->
               rotateLeft x n = rotateLeft y n -> x = y) /\
  (forall y, is_u64 y -> exists x, is_u64 x /\ rotateLeft x n = y).
Proof.
  split; [| split].
  - intros x. rewrite <- rotl_rotateLeft. apply rotl_range.
  - intros x y Hx Hy E. rewrite <- !rotl_rotateLeft in E.
    rewrite <- (rotl_rotl_opp x n Hx), <- (rotl_rotl_opp y n Hy), E.
    reflexivity.
  - intros y Hy. exists (rotl y (- n)). split; [apply rotl_range |].
    rewrite <- rotl_rotateLeft. rewrite <- (Z.opp_involutive n) at 2.
    apply rotl_rotl_opp, Hy.
Qed.

End Bijections.

Section PermutationBijective.

Lemma target_ne (r i : nat) : (i < 16)%nat -> target r i ≠ i.
Proof.
  intros Hi. unfold target, offset.
  pose proof (Nat.mod_upper_bound r 7 ltac:(lia)) as Ho.
  destruct (decide (i + (r mod 7 + 1) < 16)%nat) as [Hlt | Hge].
  - rewrite Nat.mod_small by lia. lia.
  - replace (i + (r mod 7 + 1))%nat
      with (i + (r mod 7 + 1) - 16 + 1 * 16)%nat by lia.
    rewrite Nat.Div0.mod_add, Nat.mod_small by lia. lia.
Qed.

Variable rc : list Z.
Hypothesis rc_u64 : Forall is_u64 rc.

Lemma inject_bijective (r : nat) : bijective_on (Spec.inject rc r).
Proof.
  unfold Spec.inject.
  apply (bijective_compose
           (fun st => <[0%nat := Z.lxor (st !!! 0%nat) (rc !!! r)]> st)
           (fun st => <[15%nat := Z.lxor (st !!! 15%nat)
                          (rotateLeft (rc !!! r) (Z.of_nat r + 7))]> st)).
  - destruct (lxor_bijective (rc !!! r) (Forall_u64_lane rc r rc_u64))
      as (Hr & Hi & Hs).
    apply (bijective_lane 0 (fun _ x => Z.lxor x (rc !!! r))); [lia | ..].
    + reflexivity.
    + intros _ x _. apply Hr.
    + intros _ x y _ _ _. apply Hi.
    + intros _ y _. apply Hs.
  - assert (Hc : is_u64 (rotateLeft (rc !!! r) (Z.of_nat r + 7)))
      by apply rotateLeft_bijective.
    destruct (lxor_bijective _ Hc) as (Hr & Hi & Hs).
    apply (bijective_lane 15
             (fun _ x => Z.lxor x (rotateLeft (rc !!! r) (Z.of_nat r + 7))));
      [lia | ..].
    + reflexivity.
    + intros _ x _. apply Hr.
    + intros _ x y _ _ _. apply Hi.
    + intros _ y _. apply Hs.
Qed.

Lemma mix_bijective (r i : nat) : (i < 16)%nat -> bijective_on (Spec.mix r i).
Proof.
  intros Hi. unfold Spec.mix. cbv zeta.
  fold (offset r). fold (target r i).
  pose proof (target_ne r i Hi) as Hne.
  pose proof (target_lt r i) as Hlt.
  apply (bijective_compose
           (fun st => <[i := (st !!! i + st !!! target r i) mod 2 ^ 64]> st)
           (fun st =>
              <[target r i :=
                  rotateLeft
                    (<[target r i := Z.lxor (st !!! target r i) (st !!! i)]> st
                       !!! target r i)
                    ((19 + Z.of_nat i + Z.of_nat r) mod 64)]>
                (<[target r i := Z.lxor (st !!! target r i) (st !!! i)]> st))).
  - apply (bijective_lane i
             (fun st x => (x + st !!! target r i) mod 2 ^ 64)); [lia | ..].
    + intros st v x. rewrite list_lookup_total_insert_ne by congruence.
      reflexivity.
    + intros st x Hst _. apply add_mod_bijective, state16_lane, Hst.
    + intros st x y Hst. apply add_mod_bijective, state16_lane, Hst.
    + intros st y Hst. apply add_mod_bijective, state16_lane, Hst.
  - apply (bijective_compose
             (fun st => <[target r i := Z.lxor (st !!! target r i) (st !!! i)]> st)
             (fun st => <[target r i :=
                            rotateLeft (st !!! target r i)
                              ((19 + Z.of_nat i + Z.of_nat r) mod 64)]> st)).
    + apply (bijective_lane (target r i)
               (fun st x => Z.lxor x (st !!! i))); [lia | ..].
      * intros st v x. rewrite list_lookup_total_insert_ne by congruence.
        reflexivity.
      * intros st x Hst. apply lxor_bijective, state16_lane, Hst.
      * intros st x y Hst _ _.
        apply (lxor_bijective _ (state16_lane st i Hst)).
      * intros st y Hst. apply lxor_bijective, state16_lane, Hst.
    + apply (bijective_lane (target r i)
               (fun _ x => rotateLeft x ((19 + Z.of_nat i + Z.of_nat r) mod 64)));
        [lia | ..].
      * reflexivity.
      * intros _ x _ _. apply rotateLeft_bijective.
      * intros _ x y _. apply rotateLeft_bijective.
      * intros _ y _. apply rotateLeft_bijective.
Qed.

Lemma diffuse_bijective (i : nat) : (i < 15)%nat -> bijective_on (Spec.diffuse i).
Proof.
  intros Hi. unfold Spec.diffuse.
  apply (bijective_lane (i + 1)
           (fun st x => Z.lxor x (rotateLeft (st !!! i) 11))); [lia | ..].
  - intros st v x. rewrite list_lookup_total_insert_ne by lia. reflexivity.
  - intros st x _. apply lxor_bijective, rotateLeft_bijective.
  - intros st x y _ _ _.
    apply (lxor_bijective _ (proj1 (rotateLeft_bijective 11) (st !!! i))).
  - intros st y _. apply lxor_bijective, rotateLeft_bijective.
Qed.

Lemma round_bijective (r : nat) : bijective_on (Spec.round rc r).
Proof.
  unfold Spec.round.
  apply (bijective_compose (Spec.inject rc r)
           (fun st => Spec.ascending 15 Spec.diffuse
                        (Spec.ascending 16 (Spec.mix r) st))).
  - apply inject_bijective.
  - apply (bijective_compose (Spec.ascending 16 (Spec.mix r))
             (Spec.ascending 15 Spec.diffuse)).
    + apply bijective_foldl. intros i Hi%elem_of_seq_0.
      apply mix_bijective, Hi.
    + apply bijective_foldl. intros i Hi%elem_of_seq_0.
      apply diffuse_bijective, Hi.
Qed.

Lemma permutation_bijective : bijective_on (Spec.permutation rc).
Proof.
  unfold Spec.permutation. apply bijective_foldl.
  intros r _. apply round_bijective.
Qed.

End PermutationBijective.

(** ** Padding and the word stream *)

Section Padding.

Lemma pad_to_64 (m : nat) : ((m + (64 - m mod 64) mod 64) mod 64 = 0)%nat.
Proof.
  pose proof (Nat.div_mod_eq m 64) as Hm.
  pose proof (Nat.mod_upper_bound m 64 ltac:(lia)) as Hr.
  destruct (decide (m mod 64 = 0)%nat) as [E | E].
  - rewrite E. change ((64 - 0) mod 64)%nat with 0%nat.
    rewrite Nat.add_0_r. exact E.
  - rewrite (Nat.mod_small (64 - m mod 64)) by lia.
    replace (m + (64 - m mod 64))%nat with (0 + (m / 64 + 1) * 64)%nat by lia.
    apply Nat.Div0.mod_add.
Qed.

Lemma pad_len_padLen (x : list byte) :
  pad_len (x ++ [x06]) = Spec.padLen (length x).
Proof. unfold pad_len, Spec.padLen. rewrite length_app. reflexivity. Qed.

Lemma padded_length (x : list byte) :
  length (padded x) = (length x + 1 + Spec.padLen (length x))%nat.
Proof.
  unfold padded. rewrite pad_len_padLen, !length_app, repeat_length.
  reflexivity.
Qed.

Lemma padded_length_64 (x : list byte) : (length (padded x) mod 64 = 0)%nat.
Proof. rewrite padded_length. unfold Spec.padLen. apply pad_to_64. Qed.

(** The last byte of the buffer before the final bit is set: the domain
    separator itself, or a zero byte. *)
Lemma padded_snoc (x : list byte) :
  exists (front : list byte) (b : byte),
    padded x = front ++ [b] /\
    ((b = x06 /\ Spec.padLen (length x) = 0%nat) \/
     (b = x00 /\ Spec.padLen (length x) <> 0%nat)).
Proof.
  unfold padded. rewrite pad_len_padLen.
  destruct (Spec.padLen (length x)) as [| k] eqn:E.
  - exists x, x06. simpl. rewrite app_nil_r. auto.
  - exists ((x ++ [x06]) ++ repeat x00 k), x00. split; [| auto].
    rewrite <- (app_assoc (x ++ [x06])). f_equal. apply repeat_cons.
Qed.

Lemma ior_last_snoc (front : list Z) (b m : Z) :
  ior_last (front ++ [b]) m = Ok (front ++ [Z.lor b m]).
Proof.
  unfold ior_last. rewrite length_app, Nat.add_1_r.
  rewrite lookup_app_r, Nat.sub_diag by lia. simpl.
  rewrite insert_app_r_alt, Nat.sub_diag by lia. reflexivity.
Qed.

Lemma Z_of_byte_range (b : byte) : 0 <= Z_of_byte b < 256.
Proof.
  unfold Z_of_byte. pose proof (Byte.to_N_bounded b). lia.
Qed.

Lemma bytes_Z_of_byte (l : list byte) : bytes (map Z_of_byte l) = Ok l.
Proof.
  induction l as [| b l IH]; [reflexivity |]. simpl.
  destruct (Z.leb_spec 0 (Z_of_byte b)) as [_ | H];
    [| pose proof (Z_of_byte_range b); lia].
  unfold Z_of_byte at 1. rewrite N2Z.id, Byte.of_to_N, IH. reflexivity.
Qed.

Lemma bytes_app (l1 l2 : list Z) (b1 b2 : list byte) :
  bytes l1 = Ok b1 -> bytes l2 = Ok b2 -> bytes (l1 ++ l2) = Ok (b1 ++ b2).
Proof.
  revert b1. induction l1 as [| z l1 IH]; intros b1 H1 H2.
  - injection H1 as <-. exact H2.
  - simpl in *.
    destruct (if 0 <=? z then Byte.of_N (Z.to_N z) else None) as [b |];
      [| discriminate].
    destruct (bytes l1) as [bs |] eqn:E; [| discriminate].
    injection H1 as <-. rewrite (IH bs eq_refl H2). reflexivity.
Qed.

End Padding.

Section Encoding.

(** What [p_list] and [bytes(p_list)] are, for every input. *)
Lemma padding_run (x : list byte) :
  exists (front : list byte) (b b' : byte),
    padded x = front ++ [b] /\
    ((b = x06 /\ b' = x86 /\ Spec.padLen (length x) = 0%nat) \/
     (b = x00 /\ b' = x80 /\ Spec.padLen (length x) <> 0%nat)) /\
    p_list x = Ok (map Z_of_byte front ++ [Z.lor (Z_of_byte b) 0x80]) /\
    bytes (map Z_of_byte front ++ [Z.lor (Z_of_byte b) 0x80])
      = Ok (front ++ [b']) /\
    Z_of_byte b' = Z.lor (Z_of_byte b) 0x80.
Proof.
  destruct (padded_snoc x) as (front & b & Hp & Hb).
  exists front, b, (if Byte.eqb b x06 then x86 else x80).
  split; [exact Hp |]. split; [| split; [| split]].
  - destruct Hb as [[-> E] | [-> E]]; [left | right]; auto.
  - unfold p_list. rewrite Hp, map_app. apply ior_last_snoc.
  - apply bytes_app; [apply bytes_Z_of_byte |].
    destruct Hb as [[-> _] | [-> _]]; reflexivity.
  - destruct Hb as [[-> _] | [-> _]]; reflexivity.
Qed.

Lemma from_bytes_big_be64 (c : list byte) :
  length c = 8%nat -> from_bytes_big c = Spec.be64 (map Z_of_byte c).
Proof.
  intros Hc.
  do 8 (destruct c as [| ? c]; [discriminate Hc |]).
  destruct c; [| discriminate Hc].
  unfold from_bytes_big, Spec.be64. simpl fold_left. simpl map. lia.
Qed.

Lemma be64_u64 (c : list byte) : is_u64 (Spec.be64 (map Z_of_byte c)).
Proof.
  unfold is_u64.
  do 8 (destruct c as [| ? c]; [simpl; eval_pow2; lia |]).
  destruct c; [| simpl; eval_pow2; lia].
  simpl map. unfold Spec.be64. eval_pow2.
  repeat match goal with
         | b : byte |- _ =>
             lazymatch goal with
             | _ : 0 <= Z_of_byte b < 256 |- _ => fail
             | _ => pose proof (Z_of_byte_range b)
             end
         end.
  lia.
Qed.

Lemma chunk_length {A : Type} (l : list A) (n k : nat) :
  (k < length l / n)%nat -> length (take n (drop (n * k) l)) = n.
Proof.
  intros Hk. rewrite length_take, length_drop.
  destruct n as [| n]; [reflexivity |].
  pose proof (Nat.div_mod_eq (length l) (S n)). nia.
Qed.

(** The buffer the words are read from, and the words. *)
Lemma words_run (x : list byte) :
  exists (buf : list byte) (l : list Z),
    p_list x = Ok l /\ bytes l = Ok buf /\
    length buf = length (padded x) /\
    map Z_of_byte buf = Spec.padded_buffer (map Z_of_byte x) /\
    words x = Ok (Spec.word_stream (map Z_of_byte buf)).
Proof.
  destruct (padding_run x) as (front & b & b' & Hp & Hb & Hl & Hbuf & Hb').
  exists (front ++ [b']), (map Z_of_byte front ++ [Z.lor (Z_of_byte b) 128]).
  assert (Hlen : length (front ++ [b']) = length (padded x))
    by (rewrite Hp, !length_app; reflexivity).
  split; [exact Hl |]. split; [exact Hbuf |]. split; [exact Hlen |]. split.
  - unfold Spec.padded_buffer. cbv zeta.
    replace (map Z_of_byte x ++ [6] ++ repeat 0 (Spec.padLen (length (map Z_of_byte x))))
      with (map Z_of_byte (padded x)).
    + rewrite Hp, !map_app. simpl map.
      rewrite length_app, Nat.add_sub.
      rewrite alter_app_r_alt, Nat.sub_diag by lia. simpl.
      rewrite Hb'. reflexivity.
    + unfold padded. rewrite pad_len_padLen, !map_app, map_repeat, length_map.
      rewrite <- app_assoc. reflexivity.
  - unfold words. rewrite Hl. unfold mbind at 1, result_bind.
    rewrite Hbuf. unfold mbind, result_bind.
    unfold frombuffer_be_u8.
    pose proof (padded_length_64 x) as H64. rewrite <- Hlen in H64.
    rewrite decide_True.
    2: { pose proof (Nat.div_mod_eq (length (front ++ [b'])) 64).
         pose proof (Nat.div_mod_eq (length (front ++ [b'])) 8).
         pose proof (Nat.mod_upper_bound (length (front ++ [b'])) 8).
         lia. }
    f_equal. unfold Spec.word_stream, Spec.chunks.
    rewrite map_map, length_map. apply map_ext_in.
    intros k Hk. apply in_seq in Hk.
    rewrite skipn_map, firstn_map.
    apply from_bytes_big_be64. apply chunk_length. lia.
Qed.

Lemma word_stream_length (buf : list Z) :
  length (Spec.word_stream buf) = (length buf / 8)%nat.
Proof.
  unfold Spec.word_stream, Spec.chunks. rewrite !length_map, length_seq.
  reflexivity.
Qed.

Lemma word_stream_u64 (buf : list byte) :
  Forall is_u64 (Spec.word_stream (map Z_of_byte buf)).
Proof.
  unfold Spec.word_stream, Spec.chunks. rewrite map_map.
  apply List.Forall_forall. intros w Hw. apply in_map_iff in Hw. destruct Hw as (k & <- & _).
  rewrite skipn_map, firstn_map. apply be64_u64.
Qed.

End Encoding.

(** ** The absorbing loop and the whole function *)

Section Absorb.

Lemma foldl_map {A X Y : Type} (f : A -> Y -> A) (g : X -> Y) (l : list X)
    (a : A) :
  foldl f a (map g l) = foldl (fun a x => f a (g x)) a l.
Proof. revert a. induction l as [| x l IH]; intros a; simpl; auto. Qed.

Lemma xor_loop_block (st blk : list Z) :
  length st = 16%nat -> length blk = 8%nat ->
  foldl (fun st j => <[j := Z.lxor (st !!! j) (blk !!! j)]> st) st (seq 0 8)
  = Spec.xor_block st blk.
Proof.
  intros Hst Hblk.
  do 16 (destruct st as [| ? st]; [discriminate Hst |]).
  destruct st; [| discriminate Hst].
  do 8 (destruct blk as [| ? blk]; [discriminate Hblk |]).
  destruct blk; [| discriminate Hblk].
  reflexivity.
Qed.

Lemma xor_block_length (st blk : list Z) :
  length st = 16%nat -> length blk = 8%nat ->
  length (Spec.xor_block st blk) = 16%nat.
Proof.
  intros Hst Hblk. unfold Spec.xor_block.
  rewrite length_app, length_zip_with, length_take, length_drop. lia.
Qed.

Variable s : ref.
Variable rc : list Z.
Hypothesis s_not_RC : s ≠ RC.
Hypothesis rc_12 : length rc = 12%nat.

Lemma absorb_updates (ws : list Z) :
  updates s rc (vortex_core_absorb s ws)
          (fun st => Spec.absorb rc st (Spec.chunks 8 ws)).
Proof.
  unfold vortex_core_absorb, for_range. cbv zeta.
  apply (updates_ext s rc _ (fun st =>
    foldl (fun st i =>
             Spec.permutation rc
               (Spec.xor_block st (take 8 (drop (8 * i) ws))))
          st (seq 0 (length ws / 8)))).
  2: { intros st _. unfold Spec.absorb, Spec.chunks.
       rewrite foldl_map. reflexivity. }
  apply (updates_for_each s rc s_not_RC _ _
           (fun i st => Spec.permutation rc
                          (Spec.xor_block st (take 8 (drop (8 * i) ws))))).
  intros i Hi%elem_of_seq_0.
  assert (Hblk : length (take 8 (drop (8 * i) ws)) = 8%nat)
    by (apply chunk_length; exact Hi).
  assert (Hws : (i * 8 + 8 <= length ws)%nat).
  { rewrite length_take, length_drop in Hblk. lia. }
  apply (updates_seq s rc s_not_RC _ _
           (fun st => Spec.xor_block st (take 8 (drop (8 * i) ws)))
           (Spec.permutation rc)).
  - apply (updates_ext s rc _ (fun st =>
      foldl (fun st j => <[j := Z.lxor (st !!! j) (ws !!! (i * 8 + j)%nat)]> st)
            st (seq 0 8))).
    + apply (updates_for_each s rc s_not_RC _ _
               (fun j st => <[j := Z.lxor (st !!! j) (ws !!! (i * 8 + j)%nat)]> st)).
      intros j Hj%elem_of_seq_0.
      apply (updates_lane_index s rc s_not_RC j (i * 8 + j) ws Z.lxor); lia.
    + intros st Hst. rewrite <- (xor_loop_block st _ Hst Hblk).
      apply foldl_ext_in. intros j st' Hj%elem_of_seq_0.
      rewrite lookup_total_take, lookup_total_drop by lia.
      rewrite decide_True by lia.
      replace (i * 8 + j)%nat with (8 * i + j)%nat by lia. reflexivity.
  - apply vortex_p_updates; assumption.
Qed.

End Absorb.

Section Whole.

Variables iv rc : list Z.
Hypothesis iv_16 : length iv = 16%nat.
Hypothesis rc_12 : length rc = 12%nat.

(** Running the whole function on a heap that binds [VORTEX_IV] to [iv]
    and [RC] to [rc]. *)
Lemma vortex_v512_v1_run (data : list byte) (h : heap) :
  h !! VORTEX_IV = Some iv -> h !! RC = Some rc ->
  vortex_v512_v1 data h
  = Ok (String.concat ""%string (map format_016x (take 8 (squeezed iv rc data))),
        h ++ [squeezed iv rc data]).
Proof.
  intros Hiv Hrc. unfold vortex_v512_v1.
  assert (Hcopy : copy VORTEX_IV h = Ok (length h, h ++ [iv]))
    by (unfold copy; rewrite Hiv; reflexivity).
  rewrite (run_bind _ _ _ _ _ Hcopy).
  destruct (words_run data) as (buf & l & _ & _ & _ & Hbuf & Hws).
  assert (Hlift : lift (words data) (h ++ [iv])
                  = Ok (Spec.word_stream (map Z_of_byte buf), h ++ [iv]))
    by (unfold lift; rewrite Hws; reflexivity).
  rewrite (run_bind _ _ _ _ _ Hlift). rewrite Hbuf.
  set (ws := Spec.word_stream (Spec.padded_buffer (map Z_of_byte data))).
  assert (Hlt : (RC < length h)%nat) by (eapply lookup_lt_Some; exact Hrc).
  assert (Hne : length h ≠ RC) by lia.
  assert (Hs : (h ++ [iv]) !! length h = Some iv).
  { rewrite lookup_app_r, Nat.sub_diag by lia. reflexivity. }
  assert (Hrc' : (h ++ [iv]) !! RC = Some rc).
  { rewrite lookup_app_l by exact Hlt. exact Hrc. }
  destruct (absorb_updates (length h) rc Hne rc_12 ws _ _ Hs iv_16 Hrc')
    as [Habs Hlen].
  rewrite (run_bind _ _ _ _ _ Habs).
  destruct (heap_after_write (length h) Hne (h ++ [iv]) iv
              (Spec.absorb rc iv (Spec.chunks 8 ws)) Hs) as [Hs2 Hrc2].
  rewrite Hrc' in Hrc2.
  rewrite (run_bind _ _ _ _ _
             (vortex_p_run (length h) rc Hne rc_12 _ _ Hs2 Hlen Hrc2)).
  rewrite list_insert_insert_eq.
  destruct (heap_after_write (length h) Hne (h ++ [iv]) iv
              (Spec.permutation rc (Spec.absorb rc iv (Spec.chunks 8 ws)))
              Hs) as [Hs3 _].
  rewrite (run_getslice _ _ _ _ _ Hs3). unfold mret, M_ret.
  rewrite insert_app_r_alt, Nat.sub_diag by lia.
  unfold squeezed, Spec.final_state. fold ws.
  generalize (Spec.permutation rc (Spec.absorb rc iv (Spec.chunks 8 ws))).
  intros final. reflexivity.
Qed.

End Whole.

Lemma squeezed_unfold (iv rc : list Z) (data : list byte) :
  squeezed iv rc data
  = Spec.final_state rc iv
      (Spec.word_stream (Spec.padded_buffer (map Z_of_byte data))).
Proof. reflexivity. Qed.

(** ** Formatting *)

Section Formatting.

Lemma list_ascii_append (s1 s2 : String.string) :
  String.list_ascii_of_string (String.append s1 s2)
  = String.list_ascii_of_string s1 ++ String.list_ascii_of_string s2.
Proof. induction s1 as [| c s1 IH]; simpl; [| rewrite IH]; reflexivity. Qed.

Lemma list_ascii_join (ls : list String.string) :
  String.list_ascii_of_string (String.concat ""%string ls)
  = List.concat (map String.list_ascii_of_string ls).
Proof.
  induction ls as [| s ls IH]; [reflexivity |].
  destruct ls as [| s' ls].
  - simpl. rewrite app_nil_r. reflexivity.
  - change (String.concat ""%string (s :: s' :: ls))
      with (String.append s (String.append ""%string
                               (String.concat ""%string (s' :: ls)))).
    rewrite !list_ascii_append, IH. reflexivity.
Qed.

Lemma string_length_list (s : String.string) :
  String.length s = length (String.list_ascii_of_string s).
Proof. induction s as [| c s IH]; simpl; [| rewrite IH]; reflexivity. Qed.

Lemma hex_digit_lower (d : Z) : Spec.lower_hex (hex_digit d).
Proof.
  unfold Spec.lower_hex, hex_digit.
  set (tbl := String.list_ascii_of_string "0123456789abcdef"%string).
  destruct (decide (Z.to_nat d < length tbl)%nat) as [Hlt | Hge].
  - apply list_elem_of_In, nth_In, Hlt.
  - rewrite nth_overflow by lia. left.
Qed.

(** The digit table of the formatting and the character codes agree. *)
Lemma hex_digit_char (d : Z) :
  0 <= d < 16 -> hex_digit d = Spec.hex_char d.
Proof.
  intros Hd.
  assert (Hcases : d = 0 \/ d = 1 \/ d = 2 \/ d = 3 \/ d = 4 \/ d = 5 \/
                   d = 6 \/ d = 7 \/ d = 8 \/ d = 9 \/ d = 10 \/ d = 11 \/
                   d = 12 \/ d = 13 \/ d = 14 \/ d = 15) by lia.
  repeat (destruct Hcases as [-> | Hcases]; [reflexivity |]).
  subst d. reflexivity.
Qed.

Lemma hex_char_lower (d : Z) :
  0 <= d < 16 -> Spec.lower_hex (Spec.hex_char d).
Proof.
  intros Hd. rewrite <- (hex_digit_char d Hd). apply hex_digit_lower.
Qed.

Lemma nibble_eq (x : Z) (k : nat) :
  Z.land (Z.shiftr x (4 * Z.of_nat k)) 15 = (x / 16 ^ Z.of_nat k) mod 16.
Proof.
  change 15 with (Z.ones 4). rewrite Z.land_ones by lia.
  rewrite Z.shiftr_div_pow2, Z.pow_mul_r by lia. reflexivity.
Qed.

Lemma map_constant {A X : Type} (f : X -> A) (c : A) (l : list X) :
  (forall x, In x l -> f x = c) -> map f l = repeat c (length l).
Proof.
  induction l as [| x l IH]; intros H; [reflexivity |]. simpl.
  rewrite (H x) by (left; reflexivity). f_equal. apply IH.
  intros y Hy. apply H. right. exact Hy.
Qed.

Lemma digits_count (x : Z) :
  is_u64 x ->
  1 <= Z.log2 x / 4 + 1 <= 16 /\ x < 2 ^ (4 * (Z.log2 x / 4 + 1)).
Proof.
  intros [H0 H64].
  assert (Hlog : 0 <= Z.log2 x < 64).
  { split; [apply Z.log2_nonneg |].
    destruct (Z.eq_dec x 0) as [-> | Hx]; [reflexivity |].
    apply Z.log2_lt_pow2; lia. }
  split; [Z.div_mod_to_equations; lia |].
  destruct (Z.eq_dec x 0) as [-> | Hx].
  - change (Z.log2 0) with 0. reflexivity.
  - apply Z.log2_lt_pow2; [lia |]. Z.div_mod_to_equations. lia.
Qed.

(** A [uint64] formats as exactly its 16 nibbles, most significant first. *)
Lemma format_016x_hex16 (x : Z) :
  is_u64 x -> format_016x x = String.string_of_list_ascii (Spec.hex16 x).
Proof.
  intros Hx. unfold format_016x. cbv zeta. f_equal.
  destruct (digits_count x Hx) as [Hn Hpow].
  unfold hex_digits. rewrite length_map, length_rev, length_seq.
  set (n := Z.to_nat (Z.log2 x / 4 + 1)) in *.
  set (f := fun k : nat => hex_digit (Z.land (Z.shiftr x (4 * Z.of_nat k)) 15)).
  assert (Hhigh : map f (rev (seq n (16 - n))) = repeat "0"%char (16 - n)).
  { rewrite (map_constant f "0"%char).
    - rewrite length_rev, length_seq. reflexivity.
    - intros k Hk. apply in_rev, in_seq in Hk. unfold f.
      rewrite Z.shiftr_div_pow2 by lia.
      rewrite Z.div_small; [reflexivity |]. destruct Hx as [H0 _].
      split; [exact H0 |]. eapply Z.lt_le_trans; [exact Hpow |].
      apply Z.pow_le_mono_r; lia. }
  rewrite <- Hhigh, <- map_app, <- rev_app_distr, <- seq_app.
  replace (n + (16 - n))%nat with 16%nat by lia.
  unfold Spec.hex16. simpl seq. simpl rev. unfold f. simpl map.
  rewrite !nibble_eq.
  repeat (f_equal; [apply hex_digit_char, Z.mod_pos_bound; lia |]).
  f_equal. apply hex_digit_char, Z.mod_pos_bound. lia.
Qed.

Lemma hex16_length (x : Z) : length (Spec.hex16 x) = 16%nat.
Proof. reflexivity. Qed.

Lemma hex16_lower (x : Z) : Forall Spec.lower_hex (Spec.hex16 x).
Proof.
  unfold Spec.hex16. apply List.Forall_forall. intros c Hc.
  apply in_map_iff in Hc. destruct Hc as (k & <- & _).
  apply hex_char_lower, Z.mod_pos_bound. lia.
Qed.

(** The digest string of 8 lanes. *)
Lemma join_format (lanes : list Z) :
  Forall is_u64 lanes ->
  String.list_ascii_of_string
    (String.concat ""%string (map format_016x lanes))
  = List.concat (map Spec.hex16 lanes).
Proof.
  intros Hl. rewrite list_ascii_join, map_map. f_equal.
  apply map_ext_in. intros x Hx.
  rewrite format_016x_hex16.
  - apply String.list_ascii_of_string_of_list_ascii.
  - eapply List.Forall_forall; eassumption.
Qed.

Lemma concat_hex16_length (lanes : list Z) :
  length (List.concat (map Spec.hex16 lanes)) = (16 * length lanes)%nat.
Proof.
  induction lanes as [| x l IH]; [reflexivity |].
  change (List.concat (map Spec.hex16 (x :: l)))
    with (Spec.hex16 x ++ List.concat (map Spec.hex16 l)).
  rewrite length_app, IH, hex16_length. simpl length. lia.
Qed.

Lemma concat_hex16_lower (lanes : list Z) :
  Forall Spec.lower_hex (List.concat (map Spec.hex16 lanes)).
Proof.
  induction lanes as [| x l IH]; [constructor |].
  change (List.concat (map Spec.hex16 (x :: l)))
    with (Spec.hex16 x ++ List.concat (map Spec.hex16 l)).
  apply Forall_app. split; [apply hex16_lower | exact IH].
Qed.

End Formatting.

(** ** The lanes stay 64-bit words *)

Section Invariant.

Lemma VORTEX_IV_state16 : state16 VORTEX_IV_array.
Proof.
  split; [reflexivity |].
  unfold VORTEX_IV_array. repeat constructor; unfold is_u64; eval_pow2; lia.
Qed.

Lemma RC_u64 : Forall is_u64 RC_array.
Proof.
  unfold RC_array. repeat constructor; unfold is_u64; eval_pow2; lia.
Qed.

Lemma xor_block_state16 (st blk : list Z) :
  state16 st -> length blk = 8%nat -> Forall is_u64 blk ->
  state16 (Spec.xor_block st blk).
Proof.
  intros [Hlen Hst] Hblk Hu. split; [apply xor_block_length; assumption |].
  unfold Spec.xor_block. apply Forall_app. split.
  - apply Forall_zip_with_fst with (P := is_u64);
      [apply Forall_take; exact Hst |].
    eapply Forall_impl; [| exact Hu].
    intros y Hy x Hx. apply lxor_u64; assumption.
  - apply Forall_drop, Hst.
Qed.

Variables iv rc : list Z.
Hypothesis iv_state16 : state16 iv.
Hypothesis rc_u64 : Forall is_u64 rc.

Lemma absorb_state16 (ws : list Z) (st : list Z) :
  Forall is_u64 ws -> state16 st ->
  state16 (Spec.absorb rc st (Spec.chunks 8 ws)).
Proof.
  intros Hws. unfold Spec.absorb, Spec.chunks. rewrite foldl_map.
  generalize (seq 0 (length ws / 8)) (fun k => elem_of_seq_0 (length ws / 8) k).
  intros l. revert st. induction l as [| k l IH]; intros st Hl Hst.
  - exact Hst.
  - cbn [foldl]. apply IH.
    + intros j Hj. apply Hl. right. exact Hj.
    + apply (permutation_bijective rc rc_u64). apply xor_block_state16.
      * exact Hst.
      * apply chunk_length, Hl. left.
      * apply Forall_take, Forall_drop, Hws.
Qed.

Lemma squeezed_state16 (data : list byte) : state16 (squeezed iv rc data).
Proof.
  unfold squeezed, Spec.final_state.
  apply (permutation_bijective rc rc_u64).
  apply absorb_state16; [| exact iv_state16].
  destruct (words_run data) as (buf & l & _ & _ & _ & <- & _).
  apply word_stream_u64.
Qed.

End Invariant.

(** ** What a statement may write *)

Section Frame.

Variable s : ref.

Lemma writes_only_bind {A B : Type} (m : M A) (k : A -> M B) :
  writes_only s m -> (forall x, writes_only s (k x)) ->
  writes_only s (m ≫= k).
Proof.
  intros Hm Hk h h' y. unfold mbind, M_bind.
  destruct (m h) as [[x h1] | e] eqn:E; [| discriminate].
  intros Ek. destruct (Hm _ _ _ E) as [L1 F1].
  destruct (Hk x _ _ _ Ek) as [L2 F2].
  split; [congruence |]. intros a Ha. rewrite F2, F1 by exact Ha.
  reflexivity.
Qed.

Lemma writes_only_getitem (a : ref) (i : nat) : writes_only s (getitem a i).
Proof.
  intros h h' x. unfold getitem.
  destruct (h !! a) as [arr |]; [| discriminate].
  destruct (arr !! i); [| discriminate].
  intros [= _ <-]. split; reflexivity.
Qed.


Lemma writes_only_setitem (i : nat) (v : Z) : writes_only s (setitem s i v).
Proof.
  intros h h' x. unfold setitem.
  destruct (h !! s) as [arr |]; [| discriminate].
  destruct (decide (i < length arr)%nat); [| discriminate].
  intros [= _ <-]. split; [apply length_insert |].
  intros a Ha. apply list_lookup_insert_ne. congruence.
Qed.

Lemma writes_only_for_each {X : Type} (l : list X) (body : X -> M unit) :
  (forall x, writes_only s (body x)) -> writes_only s (for_each l body).
Proof.
  intros Hbody. induction l as [| x l IH]; simpl.
  - intros h h' y [= _ <-]. split; reflexivity.
  - apply writes_only_bind; [apply Hbody | intros _; exact IH].
Qed.

Lemma vortex_p_writes_only : writes_only s (vortex_p s).
Proof.
  unfold vortex_p, for_range.
  repeat first
    [ apply writes_only_for_each; intros ?
    | apply writes_only_bind; [| intros ?]
    | apply writes_only_getitem
    | apply writes_only_setitem ].
Qed.

End Frame.


(** ** The properties of the specification *)

Lemma imported_module_heap : imported module_heap.
Proof. split; reflexivity. Qed.

Lemma imported_app (h : heap) (arr : list Z) :
  imported h -> imported (h ++ [arr]).
Proof. intros [Hiv Hrc]. split; apply lookup_app_l_Some; assumption. Qed.

(** The digest of the imported module: its run, and its text. *)
Lemma imported_run (data : list byte) (h : heap) :
  imported h ->
  vortex_v512_v1 data h
  = Ok (String.concat ""%string
          (map format_016x
               (take 8 (squeezed VORTEX_IV_array RC_array data))),
        h ++ [squeezed VORTEX_IV_array RC_array data]).
Proof.
  intros [Hiv Hrc].
  exact (vortex_v512_v1_run VORTEX_IV_array RC_array eq_refl eq_refl
           data h Hiv Hrc).
Qed.

Lemma imported_digest_text (data : list byte) :
  String.list_ascii_of_string
    (String.concat ""%string
       (map format_016x (take 8 (squeezed VORTEX_IV_array RC_array data))))
  = List.concat
      (map Spec.hex16 (take 8 (squeezed VORTEX_IV_array RC_array data))) /\
  length (take 8 (squeezed VORTEX_IV_array RC_array data)) = 8%nat.
Proof.
  pose proof (squeezed_state16 VORTEX_IV_array RC_array VORTEX_IV_state16
                RC_u64 data) as [Hlen Hu].
  split.
  - apply join_format, Forall_take, Hu.
  - rewrite length_take. lia.
Qed.

Lemma imported_digest_length (data : list byte) :
  String.length
    (String.concat ""%string
       (map format_016x (take 8 (squeezed VORTEX_IV_array RC_array data))))
  = 128%nat.
Proof.
  destruct (imported_digest_text data) as [Htext H8].
  rewrite string_length_list, Htext, concat_hex16_length, H8. reflexivity.
Qed.

Section Claims.

(** C6.  For every unsigned 64-bit value [x] and every rotation amount [r],
    [rotl x r] is the specification's
    [((x << (r mod 64)) | (x >> ((64 - r) mod 64)))] reduced to 64 bits; it
    is the left rotation of [x] by [r mod 64] bits (bit [j] of the result is
    bit [j - r mod 64], modulo 64, of [x]); [rotl x 0 = x]; and the result
    is below [2^64]. *)
Theorem rotl_is_rotateLeft (x r : Z) :
  is_u64 x ->
  rotl x r = rotateLeft x r /\
  (forall j, 0 <= j < 64 ->
             Z.testbit (rotl x r) j = Z.testbit x ((j - r mod 64) mod 64)) /\
  rotl x 0 = x /\
  0 <= rotl x r < 2 ^ 64.
Proof.
  intros Hx. split; [apply rotl_rotateLeft |]. split; [| split].
  - intros j Hj. rewrite Zminus_mod_idemp_r. apply rotl_testbit; assumption.
  - apply rotl_0, Hx.
  - apply rotl_range.
Qed.

Lemma rotl_is_rotateLeft_witness :
  is_u64 0x8000000000000001 /\
  rotl 0x8000000000000001 65 = rotateLeft 0x8000000000000001 65.
Proof.
  assert (H : is_u64 0x8000000000000001) by (unfold is_u64; lia).
  split; [exact H |].
  exact (proj1 (rotl_is_rotateLeft 0x8000000000000001 65 H)).
Defined.

(** C7.  For every round [r] in 0..11 and every lane [i] in 0..15, the
    butterfly partner [target = (i + (r mod 7) + 1) mod 16] differs from
    [i]. *)
Theorem no_self_pairing (r i : nat) :
  (r < 12)%nat -> (i < 16)%nat ->
  target r i = ((i + r mod 7 + 1) mod 16)%nat /\ target r i <> i.
Proof.
  intros _ Hi. split.
  - unfold target, offset. rewrite Nat.add_assoc. reflexivity.
  - apply target_ne, Hi.
Qed.

Lemma no_self_pairing_witness :
  target 6 15 = ((15 + 6 mod 7 + 1) mod 16)%nat /\ target 6 15 <> 15%nat.
Proof. apply (no_self_pairing 6 15); lia. Defined.

(** C2.  On a 16-lane state, [vortex_p] performs the 12 rounds
    [r = 0..11] of the specification (constant injection, the 16 butterfly
    iterations in ascending order, the 15 diffusion iterations in ascending
    order).  It raises nothing, the heap it leaves differs from the one it
    was given in the state array only, and the new state is a function of
    the old state and the round constants alone. *)
Theorem vortex_p_twelve_rounds (h : heap) (s : ref) (st rc : list Z) :
  h !! s = Some st -> length st = 16%nat ->
  h !! RC = Some rc -> length rc = 12%nat -> s ≠ RC ->
  vortex_p s h = Ok (tt, <[s := Spec.permutation rc st]> h).
Proof.
  intros Hs Hlen Hrc Hrclen Hne. apply vortex_p_run; assumption.
Qed.

Lemma vortex_p_twelve_rounds_witness :
  vortex_p 2%nat working_heap
  = Ok (tt, <[2%nat := Spec.permutation RC_array VORTEX_IV_array]> working_heap).
Proof.
  apply (vortex_p_twelve_rounds working_heap 2%nat VORTEX_IV_array RC_array);
    [reflexivity | reflexivity | reflexivity | reflexivity | unfold RC; lia].
Defined.

(** C10.  [vortex_p] is a bijection of the 16-lane states of 64-bit words:
    it maps such states to such states, two runs that end in the same state
    started from the same state, and every state is the result of a run. *)
Theorem vortex_p_bijective (h1 h2 : heap) (s : ref) (st1 st2 : list Z) :
  h1 !! s = Some st1 -> h2 !! s = Some st2 ->
  state16 st1 -> state16 st2 ->
  h1 !! RC = Some RC_array -> h2 !! RC = Some RC_array -> s ≠ RC ->
  (exists t1 t2 : list Z,
      vortex_p s h1 = Ok (tt, <[s := t1]> h1) /\
      vortex_p s h2 = Ok (tt, <[s := t2]> h2) /\
      state16 t1 /\ state16 t2 /\
      (t1 = t2 -> st1 = st2)) /\
  (exists st0 : list Z,
      state16 st0 /\
      vortex_p s (<[s := st0]> h1) = Ok (tt, <[s := st1]> h1)).
Proof.
  intros Hs1 Hs2 Hst1 Hst2 Hrc1 Hrc2 Hne.
  destruct (permutation_bijective RC_array RC_u64) as (Hwf & Hinj & Hsur).
  split.
  - exists (Spec.permutation RC_array st1), (Spec.permutation RC_array st2).
    split; [apply vortex_p_run; solve [assumption | reflexivity | apply Hst1] |].
    split; [apply vortex_p_run; solve [assumption | reflexivity | apply Hst2] |].
    split; [apply Hwf, Hst1 |]. split; [apply Hwf, Hst2 |].
    apply Hinj; assumption.
  - destruct (Hsur st1 Hst1) as (st0 & Hst0 & E). exists st0.
    split; [exact Hst0 |].
    destruct (heap_after_write s Hne h1 st1 st0 Hs1) as [Hs0 Hrc0].
    rewrite Hrc1 in Hrc0.
    rewrite (vortex_p_run s RC_array Hne eq_refl _ st0 Hs0 (proj1 Hst0) Hrc0).
    rewrite E, list_insert_insert_eq. reflexivity.
Qed.

Lemma vortex_p_bijective_witness :
  exists st0 : list Z,
    state16 st0 /\
    vortex_p 2%nat (<[2%nat := st0]> working_heap)
    = Ok (tt, <[2%nat := VORTEX_IV_array]> working_heap).
Proof.
  refine (proj2 (vortex_p_bijective working_heap
                   (<[2%nat := repeat 0 16]> working_heap) 2%nat
                   VORTEX_IV_array (repeat 0 16) _ _ _ _ _ _ _)).
  - reflexivity.
  - reflexivity.
  - split; [reflexivity |].
    unfold VORTEX_IV_array. repeat constructor; unfold is_u64; lia.
  - split; [reflexivity |]. simpl. repeat constructor; unfold is_u64; lia.
  - reflexivity.
  - reflexivity.
  - unfold RC. lia.
Defined.

(** C3.  For every byte sequence [x] the buffer the words are read from is
    [x], then the byte [0x06], then
    [padLen = (64 - ((len x + 1) mod 64)) mod 64] zero bytes, with the final
    byte ORed with [0x80]; its length is a multiple of 64; and the word
    stream is made of its consecutive 8-byte chunks, each read as a
    big-endian unsigned 64-bit integer.  Neither [bytes] nor
    [np.frombuffer] raises. *)
Theorem padding_and_word_stream (x : list byte) :
  exists (l : list Z) (buf : list byte) (ws : list Z),
    p_list x = Ok l /\ bytes l = Ok buf /\ words x = Ok ws /\
    map Z_of_byte buf = Spec.padded_buffer (map Z_of_byte x) /\
    (length buf mod 64 = 0)%nat /\
    ws = Spec.word_stream (map Z_of_byte buf).
Proof.
  destruct (words_run x) as (buf & l & Hl & Hbuf & Hlen & Hspec & Hws).
  exists l, buf, (Spec.word_stream (map Z_of_byte buf)).
  repeat split; try assumption.
  rewrite Hlen. apply padded_length_64.
Qed.

(** C4.  For every byte sequence [x] with [(len x + 1) mod 64 = 0] the
    padding appends no zero byte, the padded buffer has length [len x + 1],
    a multiple of 64, and it is [x] followed by the single byte [0x86]. *)
Theorem padding_edge_case (x : list byte) :
  ((length x + 1) mod 64 = 0)%nat ->
  pad_len (x ++ [x06]) = 0%nat /\
  exists (l : list Z) (buf : list byte),
    p_list x = Ok l /\ bytes l = Ok buf /\
    length buf = (length x + 1)%nat /\
    (length buf mod 64 = 0)%nat /\
    buf = x ++ [x86].
Proof.
  intros Hx.
  assert (Hpad : Spec.padLen (length x) = 0%nat)
    by (unfold Spec.padLen; rewrite Hx; reflexivity).
  split; [rewrite pad_len_padLen; exact Hpad |].
  destruct (padding_run x) as (front & b & b' & Hp & Hb & Hl & Hbuf & _).
  destruct Hb as [(-> & -> & _) | (_ & _ & Hne)]; [| contradiction].
  assert (Hfront : front = x).
  { unfold padded in Hp. rewrite pad_len_padLen, Hpad in Hp. simpl in Hp.
    rewrite app_nil_r in Hp. apply app_inj_tail in Hp.
    destruct Hp as [<- _]. reflexivity. }
  subst front.
  exists (map Z_of_byte x ++ [Z.lor (Z_of_byte x06) 128]), (x ++ [x86]).
  split; [exact Hl |]. split; [exact Hbuf |].
  rewrite length_app. simpl length. split; [reflexivity |].
  split; [exact Hx | reflexivity].
Qed.

Lemma padding_edge_case_witness :
  exists (l : list Z) (buf : list byte),
    p_list (repeat x61 63) = Ok l /\ bytes l = Ok buf /\
    length buf = (length (repeat x61 63) + 1)%nat /\
    (length buf mod 64 = 0)%nat /\
    buf = repeat x61 63 ++ [x86].
Proof.
  apply (padding_edge_case (repeat x61 63)). reflexivity.
Defined.

(** C1.  For every byte sequence [data], [vortex_v512_v1 data] is this
    composition: the state is a fresh copy of the IV table; the word stream
    of the padded input, whose length is a multiple of 8, is cut into
    consecutive 8-word blocks; each block in turn is XORed into lanes 0..7
    and the permutation applied once; after the last block the permutation
    is applied once more with nothing XORed in; the digest is then read
    from lanes 0..7. *)
Theorem digest_is_sponge (data : list byte) (h : heap) :
  imported h ->
  exists (ws final : list Z) (d : String.string),
    ws = Spec.word_stream (Spec.padded_buffer (map Z_of_byte data)) /\
    final = Spec.final_state RC_array VORTEX_IV_array ws /\
    words data = Ok ws /\
    (length ws mod 8 = 0)%nat /\
    vortex_v512_v1 data h = Ok (d, h ++ [final]) /\
    d = String.concat ""%string (map format_016x (take 8 final)) /\
    String.list_ascii_of_string d
    = List.concat (map Spec.hex16 (take 8 final)).
Proof.
  intros Hh.
  destruct (words_run data) as (buf & l & _ & _ & Hlen & Hspec & Hws).
  destruct (imported_digest_text data) as [Htext _].
  pose proof (imported_run data h Hh) as Hrun.
  rewrite squeezed_unfold in Htext, Hrun. rewrite Hspec in Hws.
  exists (Spec.word_stream (Spec.padded_buffer (map Z_of_byte data))),
         (Spec.final_state RC_array VORTEX_IV_array
            (Spec.word_stream (Spec.padded_buffer (map Z_of_byte data)))),
         (String.concat ""%string
            (map format_016x
               (take 8
                  (Spec.final_state RC_array VORTEX_IV_array
                     (Spec.word_stream
                        (Spec.padded_buffer (map Z_of_byte data))))))).
  split; [reflexivity |]. split; [reflexivity |].
  split; [exact Hws |]. split.
  - rewrite <- Hspec, word_stream_length, length_map, Hlen.
    pose proof (padded_length_64 data) as H64.
    pose proof (Nat.div_mod_eq (length (padded data)) 64).
    pose proof (Nat.div_mod_eq (length (padded data)) 8).
    pose proof (Nat.div_mod_eq (length (padded data) / 8) 8).
    pose proof (Nat.mod_upper_bound (length (padded data)) 8).
    pose proof (Nat.mod_upper_bound (length (padded data) / 8) 8).
    lia.
  - split; [exact Hrun |]. split; [reflexivity | exact Htext].
Qed.

Lemma digest_is_sponge_witness :
  exists (ws final : list Z) (d : String.string),
    ws = Spec.word_stream (Spec.padded_buffer (map Z_of_byte [])) /\
    final = Spec.final_state RC_array VORTEX_IV_array ws /\
    words [] = Ok ws /\
    (length ws mod 8 = 0)%nat /\
    vortex_v512_v1 [] module_heap = Ok (d, module_heap ++ [final]) /\
    d = String.concat ""%string (map format_016x (take 8 final)) /\
    String.list_ascii_of_string d
    = List.concat (map Spec.hex16 (take 8 final)).
Proof.
  apply (digest_is_sponge [] module_heap). split; reflexivity.
Defined.

(** C5.  For every byte sequence [data], the empty one included, the digest
    is a string of exactly 128 lowercase hexadecimal digits: lanes 0 to 7 of
    the final state in this order, each written as exactly 16 digits, the
    most significant first. *)
Theorem digest_is_128_hex (data : list byte) (h : heap) :
  imported h ->
  exists (d : String.string) (final : list Z),
    vortex_v512_v1 data h = Ok (d, h ++ [final]) /\
    final = Spec.final_state RC_array VORTEX_IV_array
              (Spec.word_stream (Spec.padded_buffer (map Z_of_byte data))) /\
    String.length d = 128%nat /\
    Forall Spec.lower_hex (String.list_ascii_of_string d) /\
    length (take 8 final) = 8%nat /\
    Forall is_u64 (take 8 final) /\
    String.list_ascii_of_string d = List.concat (map Spec.hex16 (take 8 final)).
Proof.
  intros Hh.
  destruct (imported_digest_text data) as [Htext H8].
  pose proof (squeezed_state16 VORTEX_IV_array RC_array VORTEX_IV_state16
                RC_u64 data) as [_ Hu].
  exists (String.concat ""%string
            (map format_016x
                 (take 8 (squeezed VORTEX_IV_array RC_array data)))),
         (squeezed VORTEX_IV_array RC_array data).
  split; [apply imported_run, Hh |].
  split; [apply squeezed_unfold |].
  split; [apply imported_digest_length |].
  split; [rewrite Htext; apply concat_hex16_lower |].
  split; [exact H8 |].
  split; [apply Forall_take, Hu | exact Htext].
Qed.

Lemma digest_is_128_hex_witness :
  exists (d : String.string) (final : list Z),
    vortex_v512_v1 [] module_heap = Ok (d, module_heap ++ [final]) /\
    final = Spec.final_state RC_array VORTEX_IV_array
              (Spec.word_stream (Spec.padded_buffer (map Z_of_byte []))) /\
    String.length d = 128%nat /\
    Forall Spec.lower_hex (String.list_ascii_of_string d) /\
    length (take 8 final) = 8%nat /\
    Forall is_u64 (take 8 final) /\
    String.list_ascii_of_string d = List.concat (map Spec.hex16 (take 8 final)).
Proof.
  apply (digest_is_128_hex [] module_heap). split; reflexivity.
Defined.

(** C8.  The digest is a total, deterministic function of the byte
    sequence: on every input the call returns a string of 128 characters; a
    second call on the heap the first call left returns the same string;
    and so does a call on any other heap of the imported module. *)
Theorem digest_total_deterministic (data : list byte) (h h' : heap) :
  imported h -> imported h' ->
  exists (d : String.string) (h1 h2 : heap),
    vortex_v512_v1 data h = Ok (d, h1) /\
    vortex_v512_v1 data h1 = Ok (d, h2) /\
    digest h' data = Ok d /\
    String.length d = 128%nat.
Proof.
  intros Hh Hh'.
  exists (String.concat ""%string
            (map format_016x
                 (take 8 (squeezed VORTEX_IV_array RC_array data)))),
         (h ++ [squeezed VORTEX_IV_array RC_array data]),
         ((h ++ [squeezed VORTEX_IV_array RC_array data])
            ++ [squeezed VORTEX_IV_array RC_array data]).
  split; [apply imported_run, Hh |].
  split; [apply imported_run, imported_app, Hh |].
  split; [| apply imported_digest_length].
  unfold digest. rewrite (imported_run data h' Hh'). reflexivity.
Qed.

Lemma digest_total_deterministic_witness :
  exists (d : String.string) (h1 h2 : heap),
    vortex_v512_v1 [x56; x4f; x52; x54; x45; x58] module_heap = Ok (d, h1) /\
    vortex_v512_v1 [x56; x4f; x52; x54; x45; x58] h1 = Ok (d, h2) /\
    digest working_heap [x56; x4f; x52; x54; x45; x58] = Ok d /\
    String.length d = 128%nat.
Proof.
  apply (digest_total_deterministic [x56; x4f; x52; x54; x45; x58]
           module_heap working_heap); split; reflexivity.
Defined.

(** C9.  Computing a digest never changes the constant tables: when
    [vortex_v512_v1] returns, every array that existed before the call,
    [VORTEX_IV] with its 16 values and [RC] with its 12 values among them,
    is as it was; the state the call worked on is a new array; and
    [vortex_p] leaves every array other than its argument as it was, [RC]
    in particular. *)
Theorem constant_tables_untouched (data : list byte) (h : heap) :
  imported h ->
  (exists (d : String.string) (final : list Z),
      vortex_v512_v1 data h = Ok (d, h ++ [final]) /\
      imported (h ++ [final]) /\
      (forall a arr, h !! a = Some arr -> (h ++ [final]) !! a = Some arr)) /\
  (forall (s : ref) (g g' : heap),
      s ≠ RC -> vortex_p s g = Ok (tt, g') ->
      length g' = length g /\ forall a, a ≠ s -> g' !! a = g !! a) /\
  length VORTEX_IV_array = 16%nat /\ length RC_array = 12%nat.
Proof.
  intros Hh. split; [| split; [| split; reflexivity]].
  - exists (String.concat ""%string
              (map format_016x
                   (take 8 (squeezed VORTEX_IV_array RC_array data)))),
           (squeezed VORTEX_IV_array RC_array data).
    split; [apply imported_run, Hh |]. split; [apply imported_app, Hh |].
    intros a arr Ha. apply lookup_app_l_Some, Ha.
  - intros s g g' _ Hrun. apply (vortex_p_writes_only s g g' tt Hrun).
Qed.

Lemma constant_tables_untouched_witness :
  exists (d : String.string) (final : list Z),
    vortex_v512_v1 [] module_heap = Ok (d, module_heap ++ [final]) /\
    imported (module_heap ++ [final]) /\
    (forall a arr, module_heap !! a = Some arr ->
                   (module_heap ++ [final]) !! a = Some arr).
Proof.
  apply (constant_tables_untouched [] module_heap). split; reflexivity.
Defined.

End Claims.

(** ** More on the rotation *)

Section RotationFacts.

Lemma u64_bits_eq (x y : Z) :
  is_u64 x -> is_u64 y ->
  (forall j, 0 <= j < 64 -> Z.testbit x j = Z.testbit y j) -> x = y.
Proof.
  intros Hx Hy H. apply Z.bits_inj'. intros j Hj.
  destruct (Z.lt_ge_cases j 64); [apply H; lia |].
  rewrite !u64_testbit_high by assumption. reflexivity.
Qed.

Lemma rotl_rotl (x a b : Z) : is_u64 x -> rotl (rotl x a) b = rotl x (a + b).
Proof.
  intros Hx. apply u64_bits_eq; [apply rotl_range .. |]. intros j Hj.
  rewrite rotl_testbit by (apply rotl_range || lia).
  rewrite rotl_testbit by (assumption || apply Z.mod_pos_bound; lia).
  rewrite rotl_testbit by (assumption || lia).
  rewrite Zminus_mod_idemp_l. f_equal. f_equal. lia.
Qed.

Lemma rotl_lxor (x y r : Z) :
  is_u64 x -> is_u64 y -> rotl (Z.lxor x y) r = Z.lxor (rotl x r) (rotl y r).
Proof.
  intros Hx Hy.
  apply u64_bits_eq;
    [apply rotl_range | apply lxor_u64; apply rotl_range |].
  intros j Hj.
  rewrite Z.lxor_spec, !rotl_testbit by (assumption || apply lxor_u64; assumption).
  apply Z.lxor_spec.
Qed.

Lemma mod64_opp (r : Z) :
  (64 - r) mod 64 = if Z.eq_dec (r mod 64) 0 then 0 else 64 - r mod 64.
Proof.
  pose proof (Z.mod_pos_bound r 64 ltac:(lia)) as Hk.
  pose proof (Z.div_mod r 64 ltac:(lia)) as Hr.
  destruct (Z.eq_dec (r mod 64) 0) as [E | E]; symmetry.
  - apply (Z.mod_unique_pos _ _ (1 - r / 64)); lia.
  - apply (Z.mod_unique_pos _ _ (- (r / 64))); lia.
Qed.

Lemma low_bits_zero (x k j : Z) :
  0 <= j < k -> Z.testbit ((x * 2 ^ k) mod 2 ^ 64) j = false.
Proof.
  intros Hj. destruct (Z.lt_ge_cases j 64).
  - rewrite Z.mod_pow2_bits_low by lia.
    rewrite <- Z.shiftl_mul_pow2, Z.shiftl_spec by lia.
    apply Z.testbit_neg_r. lia.
  - apply Z.mod_pow2_bits_high. lia.
Qed.

Lemma high_bits_zero (b k j : Z) :
  0 <= b < 2 ^ k -> k <= j -> Z.testbit b j = false.
Proof.
  intros Hb Hj. destruct (Z.eq_dec b 0) as [-> | Hnz]; [apply Z.bits_0 |].
  apply Z.bits_above_log2; [lia |].
  assert (0 <= k).
  { destruct (Z.lt_ge_cases k 0); [| assumption].
    rewrite Z.pow_neg_r in Hb by assumption. lia. }
  assert (Z.log2 b < k) by (apply Z.log2_lt_pow2; lia). lia.
Qed.

Lemma rotl_arith (x r : Z) :
  is_u64 x ->
  rotl x r = (x * 2 ^ (r mod 64)) mod 2 ^ 64 + x / 2 ^ (64 - r mod 64).
Proof.
  intros Hx. pose proof (Z.mod_pos_bound r 64 ltac:(lia)) as Hk.
  unfold rotl, shl64, wrap64. rewrite land_mask64, !land_63, mod64_opp.
  rewrite Z.shiftl_mul_pow2, Z.shiftr_div_pow2
    by (destruct (Z.eq_dec (r mod 64) 0); lia).
  destruct (Z.eq_dec (r mod 64) 0) as [E | E].
  - rewrite E, Z.sub_0_r, Z.pow_0_r, Z.mul_1_r, Z.div_1_r.
    rewrite (Z.mod_small x) by exact Hx. rewrite Z.lor_diag.
    rewrite (Z.mod_small x), (Z.div_small x) by exact Hx. lia.
  - set (k := r mod 64) in *.
    set (A := (x * 2 ^ k) mod 2 ^ 64).
    set (B := x / 2 ^ (64 - k)).
    assert (HB : 0 <= B < 2 ^ k).
    { destruct Hx as [H0 H64]. split; [apply Z.div_pos; lia |].
      apply Z.div_lt_upper_bound; [lia |].
      rewrite <- Z.pow_add_r by lia. replace (64 - k + k) with 64 by lia.
      exact H64. }
    assert (Hdisj : Z.land A B = 0).
    { apply Z.bits_inj'. intros j Hj. rewrite Z.land_spec, Z.bits_0.
      destruct (Z.lt_ge_cases j k).
      - unfold A. rewrite low_bits_zero by lia. reflexivity.
      - rewrite (high_bits_zero B k j) by assumption.
        apply Bool.andb_false_r. }
    rewrite <- Z.lxor_lor, <- Z.add_nocarry_lxor by exact Hdisj.
    apply Z.mod_small.
    assert (HA : 0 <= A < 2 ^ 64) by (apply Z.mod_pos_bound; lia).
    split; [lia |].
    rewrite (Z.add_nocarry_lxor A B Hdisj).
    assert (HB64 : is_u64 B).
    { split; [lia |]. eapply Z.lt_le_trans; [apply HB |].
      apply Z.pow_le_mono_r; lia. }
    apply (lxor_u64 A B HA HB64).
Qed.

End RotationFacts.

(** ** Loops over equal bodies, and loops cut in two *)

Section Loops.

Lemma bind_ext {A B : Type} (m m' : M A) (k k' : A -> M B) (h : heap) :
  m h = m' h -> (forall a h1, k a h1 = k' a h1) ->
  (m ≫= k) h = (m' ≫= k') h.
Proof.
  intros Hm Hk. unfold mbind, M_bind. rewrite Hm.
  destruct (m' h) as [[a h1] | e]; [apply Hk | reflexivity].
Qed.

Lemma for_each_ext {X : Type} (l : list X) (body body' : X -> M unit) :
  (forall x, x ∈ l -> forall h, body x h = body' x h) ->
  forall h, for_each l body h = for_each l body' h.
Proof.
  induction l as [| x l IH]; intros Hb h; [reflexivity |]. simpl.
  apply bind_ext; [apply Hb; left |].
  intros _ h1. apply IH. intros y Hy. apply Hb. right. exact Hy.
Qed.

Lemma for_each_app {X : Type} (l1 l2 : list X) (body : X -> M unit)
    (h : heap) :
  for_each (l1 ++ l2) body h = (for_each l1 body ;; for_each l2 body) h.
Proof.
  revert h. induction l1 as [| x l1 IH]; intros h; [reflexivity |].
  simpl. unfold mbind, M_bind.
  destruct (body x h) as [[[] h1] | e]; [| reflexivity].
  rewrite IH. reflexivity.
Qed.

Lemma for_each_map {X Y : Type} (g : X -> Y) (l : list X)
    (body : Y -> M unit) (h : heap) :
  for_each (map g l) body h = for_each l (fun x => body (g x)) h.
Proof.
  revert h. induction l as [| x l IH]; intros h; [reflexivity |].
  simpl. apply bind_ext; [reflexivity | intros _ h1; apply IH].
Qed.

Lemma seq_from (a n : nat) : seq a n = map (Nat.add a) (seq 0 n).
Proof.
  revert a. induction n as [| n IH]; intros a; [reflexivity |].
  simpl. rewrite Nat.add_0_r. f_equal.
  rewrite (IH (S a)), (IH 1%nat), map_map. apply map_ext.
  intros i. lia.
Qed.

Lemma index_ext (w w' : list Z) (i i' : nat) (h : heap) :
  w !! i = w' !! i' -> index w i h = index w' i' h.
Proof. intros E. unfold index. rewrite E. reflexivity. Qed.

(** The body of the absorbing loop reads [words] at [idx .. idx + 7]
    only. *)
Lemma absorb_block_ext (s : ref) (w w' : list Z) (idx idx' : nat) :
  (forall j, (j < 8)%nat -> w !! (idx + j)%nat = w' !! (idx' + j)%nat) ->
  forall h,
    for_range 8 (fun j =>
      (x ← getitem s j; c ← index w (idx + j); setitem s j (Z.lxor x c))) h
    = for_range 8 (fun j =>
      (x ← getitem s j; c ← index w' (idx' + j); setitem s j (Z.lxor x c))) h.
Proof.
  intros Hw. unfold for_range. apply for_each_ext.
  intros j Hj%elem_of_seq_0 h.
  apply bind_ext; [reflexivity |]. intros x h1.
  apply bind_ext; [apply index_ext, Hw, Hj | reflexivity].
Qed.

End Loops.

Section AbsorbStream.

Variable s : ref.

Lemma absorb_trailing (ws tail : list Z) (h : heap) :
  (length ws mod 8 = 0)%nat -> (length tail < 8)%nat ->
  vortex_core_absorb s (ws ++ tail) h = vortex_core_absorb s ws h.
Proof.
  intros Hws Htail. unfold vortex_core_absorb. cbv zeta.
  pose proof (Nat.div_mod_eq (length ws) 8) as Hdiv.
  assert (Hn : (length (ws ++ tail) / 8 = length ws / 8)%nat).
  { rewrite length_app. symmetry.
    apply (Nat.div_unique _ 8 _ (length tail)); lia. }
  rewrite Hn. unfold for_range at 1 3. apply for_each_ext.
  intros i Hi%elem_of_seq_0 h1.
  apply bind_ext; [| reflexivity].
  apply absorb_block_ext. intros j Hj.
  apply lookup_app_l. lia.
Qed.

Lemma absorb_app (ws1 ws2 : list Z) (h : heap) :
  (length ws1 mod 8 = 0)%nat ->
  vortex_core_absorb s (ws1 ++ ws2) h
  = (vortex_core_absorb s ws1 ;; vortex_core_absorb s ws2) h.
Proof.
  intros Hws. unfold vortex_core_absorb. cbv zeta.
  pose proof (Nat.div_mod_eq (length ws1) 8) as Hdiv1.
  pose proof (Nat.div_mod_eq (length ws2) 8) as Hdiv2.
  pose proof (Nat.mod_upper_bound (length ws2) 8 ltac:(lia)) as Hr2.
  assert (Hn : (length (ws1 ++ ws2) / 8
                = length ws1 / 8 + length ws2 / 8)%nat).
  { rewrite length_app. symmetry.
    apply (Nat.div_unique _ 8 _ (length ws2 mod 8)); lia. }
  rewrite Hn. unfold for_range at 1 3 5.
  rewrite seq_app, for_each_app, Nat.add_0_l.
  apply bind_ext.
  - apply for_each_ext. intros i Hi%elem_of_seq_0 h1.
    apply bind_ext; [| reflexivity].
    apply absorb_block_ext. intros j Hj. apply lookup_app_l. lia.
  - intros _ h1. rewrite seq_from, for_each_map.
    apply for_each_ext. intros i Hi%elem_of_seq_0 h2.
    apply bind_ext; [| reflexivity].
    apply absorb_block_ext. intros j Hj.
    rewrite lookup_app_r by lia. f_equal. lia.
Qed.

End AbsorbStream.

(** ** What the absorbing loop and the whole call may write *)

Section MoreFrames.






End MoreFrames.

Section AbsorbInvariant.

Lemma absorb_run_state16 (s : ref) (h : heap) (st rc ws : list Z) :
  h !! s = Some st -> state16 st ->
  h !! RC = Some rc -> length rc = 12%nat -> Forall is_u64 rc ->
  Forall is_u64 ws -> s ≠ RC ->
  vortex_core_absorb s ws h
  = Ok (tt, <[s := Spec.absorb rc st (Spec.chunks 8 ws)]> h) /\
  state16 (Spec.absorb rc st (Spec.chunks 8 ws)).
Proof.
  intros Hs Hst Hrc Hlen Hu Hws Hne. split.
  - apply (absorb_updates s rc Hne Hlen ws h st Hs (proj1 Hst) Hrc).
  - apply absorb_state16; assumption.
Qed.

End AbsorbInvariant.

(** ** The buffer in closed form *)

Section BufferForm.

(** What [bytes(p_list)] is: the message, then a suffix that the length of
    the message selects. *)
Lemma buffer_form (x : list byte) :
  (p_list x ≫= bytes)
  = Ok (x ++ match Spec.padLen (length x) with
             | O => [x86]
             | S k => x06 :: repeat x00 k ++ [x80]
             end).
Proof.
  destruct (padding_run x) as (front & b & b' & Hp & Hb & Hl & Hbuf & _).
  rewrite Hl. unfold mbind, result_bind. rewrite Hbuf. f_equal.
  unfold padded in Hp. rewrite pad_len_padLen in Hp.
  destruct Hb as [(-> & -> & E) | (-> & -> & E)].
  - rewrite E in *. simpl in Hp. rewrite app_nil_r in Hp.
    apply app_inj_tail in Hp. destruct Hp as [<- _]. reflexivity.
  - destruct (Spec.padLen (length x)) as [| k]; [contradiction |].
    change (repeat x00 (S k)) with (x00 :: repeat x00 k) in Hp.
    rewrite repeat_cons in Hp.
    rewrite <- (app_assoc x [x06]), (app_assoc [x06]), (app_assoc x) in Hp.
    apply app_inj_tail in Hp. destruct Hp as [<- _].
    rewrite <- !app_assoc. reflexivity.
Qed.

Lemma padLen_total (n : nat) :
  (n + 1 + Spec.padLen n = 64 * (n / 64 + 1))%nat.
Proof.
  unfold Spec.padLen.
  pose proof (Nat.div_mod_eq n 64) as Hn.
  pose proof (Nat.mod_upper_bound n 64 ltac:(lia)) as Hr.
  pose proof (Nat.div_mod_eq (n + 1) 64) as Hn1.
  pose proof (Nat.mod_upper_bound (n + 1) 64 ltac:(lia)) as Hr1.
  destruct (decide ((n + 1) mod 64 = 0)%nat) as [E | E].
  - rewrite E. change ((64 - 0) mod 64)%nat with 0%nat. lia.
  - rewrite (Nat.mod_small (64 - (n + 1) mod 64)) by lia. lia.
Qed.

Lemma padLen_zero_iff (n : nat) :
  Spec.padLen n = 0%nat <-> ((n + 1) mod 64 = 0)%nat.
Proof.
  unfold Spec.padLen.
  pose proof (Nat.mod_upper_bound (n + 1) 64 ltac:(lia)) as Hr1.
  destruct (decide ((n + 1) mod 64 = 0)%nat) as [E | E].
  - rewrite E. split; reflexivity.
  - rewrite (Nat.mod_small (64 - (n + 1) mod 64)) by lia. lia.
Qed.

Lemma Z_of_byte_inj (a b : byte) : Z_of_byte a = Z_of_byte b -> a = b.
Proof.
  unfold Z_of_byte. intros E. apply N2Z.inj in E.
  pose proof (Byte.of_to_N a) as Ha. rewrite E, Byte.of_to_N in Ha.
  congruence.
Qed.

Lemma digit_split (a b c d : Z) :
  0 <= b < 256 -> 0 <= d < 256 -> a * 256 + b = c * 256 + d ->
  a = c /\ b = d.
Proof. intros Hb Hd E. lia. Qed.

Lemma be64_horner (b0 b1 b2 b3 b4 b5 b6 b7 : Z) :
  Spec.be64 [b0; b1; b2; b3; b4; b5; b6; b7]
  = ((((((b0 * 256 + b1) * 256 + b2) * 256 + b3) * 256 + b4) * 256 + b5)
       * 256 + b6) * 256 + b7.
Proof. unfold Spec.be64. eval_pow2. ring. Qed.

Lemma be64_inj (c1 c2 : list byte) :
  length c1 = 8%nat -> length c2 = 8%nat ->
  Spec.be64 (map Z_of_byte c1) = Spec.be64 (map Z_of_byte c2) -> c1 = c2.
Proof.
  intros H1 H2.
  do 8 (destruct c1 as [| ? c1]; [discriminate H1 |]).
  destruct c1; [| discriminate H1].
  do 8 (destruct c2 as [| ? c2]; [discriminate H2 |]).
  destruct c2; [| discriminate H2].
  simpl map. rewrite !be64_horner. intros E.
  repeat match type of E with
         | _ * 256 + Z_of_byte ?x = _ * 256 + Z_of_byte ?y =>
             apply (digit_split _ _ _ _ (Z_of_byte_range x)
                      (Z_of_byte_range y)) in E;
             destruct E as [E ?]
         end.
  repeat f_equal; apply Z_of_byte_inj; assumption.
Qed.

Lemma word_stream_inj (b1 b2 : list byte) :
  (length b1 mod 8 = 0)%nat -> (length b2 mod 8 = 0)%nat ->
  Spec.word_stream (map Z_of_byte b1) = Spec.word_stream (map Z_of_byte b2) ->
  b1 = b2.
Proof.
  intros H1 H2 E.
  pose proof (Nat.div_mod_eq (length b1) 8) as D1.
  pose proof (Nat.div_mod_eq (length b2) 8) as D2.
  assert (Hn : (length b1 / 8 = length b2 / 8)%nat).
  { apply (f_equal length) in E.
    rewrite !word_stream_length, !length_map in E. exact E. }
  assert (Hlen : length b1 = length b2) by lia.
  assert (Hchunk : forall k, (k < length b1 / 8)%nat ->
            take 8 (drop (8 * k) b1) = take 8 (drop (8 * k) b2)).
  { intros k Hk. apply be64_inj.
    - apply chunk_length, Hk.
    - apply chunk_length. lia.
    - apply (f_equal (fun l => l !! k)) in E.
      unfold Spec.word_stream, Spec.chunks in E.
      rewrite !map_map, !length_map in E.
      rewrite !list_lookup_fmap in E.
      rewrite !lookup_seq_lt in E by lia. simpl in E.
      rewrite !skipn_map, !firstn_map in E. injection E as E. exact E. }
  apply list_eq. intros i.
  destruct (decide (i < length b1)%nat) as [Hi | Hi].
  - pose proof (Nat.div_mod_eq i 8) as Di.
    pose proof (Nat.mod_upper_bound i 8 ltac:(lia)) as Ri.
    assert (Hk : (i / 8 < length b1 / 8)%nat) by lia.
    specialize (Hchunk _ Hk).
    apply (f_equal (fun l => l !! (i mod 8)%nat)) in Hchunk.
    rewrite !lookup_take_lt, !lookup_drop in Hchunk by lia.
    rewrite <- Di in Hchunk. exact Hchunk.
  - rewrite !lookup_ge_None_2 by lia. reflexivity.
Qed.

(** The domain separator is the last [0x06] of the buffer. *)
Lemma separator_unique (x y t1 t2 : list byte) :
  Forall (fun b => b <> x06) t1 -> Forall (fun b => b <> x06) t2 ->
  x ++ x06 :: t1 = y ++ x06 :: t2 -> x = y.
Proof.
  intros Ht1 Ht2 E.
  assert (Hpos : forall (u v s1 s2 : list byte),
            Forall (fun b => b <> x06) s1 ->
            u ++ x06 :: s1 = v ++ x06 :: s2 -> (length v <= length u)%nat).
  { intros u v s1 s2 Hs1 Euv.
    destruct (decide (length v <= length u)%nat) as [| Hgt]; [assumption |].
    exfalso.
    apply (f_equal (fun l => l !! length v)) in Euv.
    rewrite (lookup_app_r v), Nat.sub_diag in Euv by lia.
    rewrite lookup_app_r in Euv by lia.
    destruct (length v - length u)%nat as [| m] eqn:Em; [lia |].
    simpl in Euv.
    eapply Forall_lookup_1 in Hs1; [| exact Euv]. congruence. }
  assert (Hlen : length x = length y).
  { apply Nat.le_antisymm.
    - apply (Hpos y x t2 t1 Ht2). symmetry. exact E.
    - apply (Hpos x y t1 t2 Ht1 E). }
  apply app_inj_1 in E; [apply E | exact Hlen].
Qed.

Lemma buffer_inj (x y : list byte) :
  (p_list x ≫= bytes) = (p_list y ≫= bytes) -> x = y.
Proof.
  rewrite !buffer_form. intros [= E].
  assert (Hz : forall k, Forall (fun b => b <> x06) (repeat x00 k ++ [x80])).
  { intros k. apply Forall_app. split.
    - apply List.Forall_forall. intros b Hb. apply repeat_spec in Hb.
      subst b. discriminate.
    - repeat constructor. discriminate. }
  destruct (Spec.padLen (length x)) as [| k], (Spec.padLen (length y)) as [| k'].
  - apply app_inj_tail in E. apply E.
  - change (y ++ x06 :: repeat x00 k' ++ [x80])
      with (y ++ (x06 :: repeat x00 k') ++ [x80]) in E.
    rewrite app_assoc in E. apply app_inj_tail in E.
    destruct E as [_ E]. discriminate E.
  - change (x ++ x06 :: repeat x00 k ++ [x80])
      with (x ++ (x06 :: repeat x00 k) ++ [x80]) in E.
    rewrite app_assoc in E. apply app_inj_tail in E.
    destruct E as [_ E]. discriminate E.
  - eapply separator_unique; [apply Hz | apply Hz | exact E].
Qed.

End BufferForm.

(** ** The butterfly partner, the word stream and the digest text *)

Section Injectivity.

Lemma target_cases (r i : nat) :
  (i < 16)%nat ->
  (1 <= offset r <= 7)%nat /\
  (target r i = i + offset r \/ target r i + 16 = i + offset r)%nat.
Proof.
  intros Hi. unfold target.
  assert (Ho : (1 <= offset r <= 7)%nat).
  { unfold offset. pose proof (Nat.mod_upper_bound r 7 ltac:(lia)). lia. }
  split; [exact Ho |].
  pose proof (Nat.div_mod_eq (i + offset r) 16) as Hd.
  pose proof (Nat.mod_upper_bound (i + offset r) 16 ltac:(lia)) as Hm.
  lia.
Qed.

Lemma words_inj (x y : list byte) : words x = words y -> x = y.
Proof.
  intros E. apply buffer_inj. rewrite !buffer_form. f_equal.
  destruct (words_run x) as (bx & lx & Hlx & Hbx & Hlenx & _ & Hwx).
  destruct (words_run y) as (b_y & ly & Hly & Hby & Hleny & _ & Hwy).
  assert (Ex : (p_list x ≫= bytes) = Ok bx)
    by (rewrite Hlx; exact Hbx).
  assert (Ey : (p_list y ≫= bytes) = Ok b_y)
    by (rewrite Hly; exact Hby).
  rewrite buffer_form in Ex, Ey. injection Ex as Ex. injection Ey as Ey.
  rewrite Ex, Ey.
  rewrite Hwx, Hwy in E. injection E as E.
  apply word_stream_inj in E; [exact E | |].
  - pose proof (padded_length_64 x) as H64. rewrite <- Hlenx in H64.
    pose proof (Nat.div_mod_eq (length bx) 64).
    pose proof (Nat.div_mod_eq (length bx) 8).
    pose proof (Nat.mod_upper_bound (length bx) 8). lia.
  - pose proof (padded_length_64 y) as H64. rewrite <- Hleny in H64.
    pose proof (Nat.div_mod_eq (length b_y) 64).
    pose proof (Nat.div_mod_eq (length b_y) 8).
    pose proof (Nat.mod_upper_bound (length b_y) 8). lia.
Qed.

Lemma hex_char_inj (a b : Z) :
  0 <= a < 16 -> 0 <= b < 16 -> Spec.hex_char a = Spec.hex_char b -> a = b.
Proof.
  intros Ha Hb E. unfold Spec.hex_char in E.
  apply (f_equal nat_of_ascii) in E.
  rewrite !nat_ascii_embedding in E
    by (destruct (a <? 10), (b <? 10); lia).
  destruct (Z.ltb_spec a 10), (Z.ltb_spec b 10); lia.
Qed.

Lemma nibbles_inj (x y : Z) :
  is_u64 x -> is_u64 y ->
  (forall k : nat, (k < 16)%nat ->
     (x / 16 ^ Z.of_nat k) mod 16 = (y / 16 ^ Z.of_nat k) mod 16) ->
  x = y.
Proof.
  intros Hx Hy H. apply Z.bits_inj'. intros j Hj.
  destruct (Z.lt_ge_cases j 64) as [Hlt | Hge].
  - pose proof (Z.div_mod j 4 ltac:(lia)) as Hd.
    pose proof (Z.mod_pos_bound j 4 ltac:(lia)) as Hm.
    assert (Hk : (Z.to_nat (j / 4) < 16)%nat) by lia.
    specialize (H _ Hk). rewrite <- !nibble_eq in H.
    apply (f_equal (fun z => Z.testbit z (j mod 4))) in H.
    change 15 with (Z.ones 4) in H.
    rewrite !Z.land_spec, !Z.shiftr_spec, !Z.ones_spec_low in H by lia.
    rewrite !Bool.andb_true_r in H.
    replace (j mod 4 + 4 * Z.of_nat (Z.to_nat (j / 4))) with j in H by lia.
    exact H.
  - rewrite !u64_testbit_high by assumption. reflexivity.
Qed.

Lemma hex16_inj (x y : Z) :
  is_u64 x -> is_u64 y -> Spec.hex16 x = Spec.hex16 y -> x = y.
Proof.
  intros Hx Hy E. apply nibbles_inj; [assumption .. |].
  unfold Spec.hex16 in E. simpl map in E.
  injection E as E15 E14 E13 E12 E11 E10 E9 E8 E7 E6 E5 E4 E3 E2 E1 E0.
  intros k Hk.
  apply hex_char_inj; [apply Z.mod_pos_bound; lia .. |].
  do 16 (destruct k as [| k]; [assumption |]). lia.
Qed.

Lemma concat_hex16_inj (l1 l2 : list Z) :
  Forall is_u64 l1 -> Forall is_u64 l2 ->
  List.concat (map Spec.hex16 l1) = List.concat (map Spec.hex16 l2) ->
  l1 = l2.
Proof.
  intros H1. revert l2. induction H1 as [| x l1 Hx _ IH]; intros l2 H2 E.
  - destruct l2 as [| y l2]; [reflexivity |]. discriminate E.
  - destruct H2 as [| y l2 Hy H2]; [discriminate E |].
    change (Spec.hex16 x ++ List.concat (map Spec.hex16 l1)
            = Spec.hex16 y ++ List.concat (map Spec.hex16 l2)) in E.
    apply app_inj_1 in E; [| rewrite !hex16_length; reflexivity].
    destruct E as [Exy E]. f_equal.
    + apply hex16_inj; assumption.
    + apply IH; assumption.
Qed.

Lemma zip_lxor_inj (l b1 b2 : list Z) :
  length b1 = length l -> length b2 = length l ->
  zip_with Z.lxor l b1 = zip_with Z.lxor l b2 -> b1 = b2.
Proof.
  revert b1 b2. induction l as [| a l IH]; intros b1 b2 H1 H2 E.
  - destruct b1, b2; try discriminate. reflexivity.
  - destruct b1 as [| u b1], b2 as [| v b2]; try discriminate.
    simpl in E. injection E as Euv E. f_equal.
    + rewrite (Z.lxor_comm a u), (Z.lxor_comm a v) in Euv.
      apply lxor_cancel_r in Euv. exact Euv.
    + apply IH; simpl in *; congruence.
Qed.

Lemma xor_block_inj (st b1 b2 : list Z) :
  length st = 16%nat -> length b1 = 8%nat -> length b2 = 8%nat ->
  Spec.xor_block st b1 = Spec.xor_block st b2 -> b1 = b2.
Proof.
  intros Hst H1 H2 E. unfold Spec.xor_block in E.
  apply app_inv_tail in E.
  apply (zip_lxor_inj (take 8 st)); [| | exact E];
    rewrite length_take; lia.
Qed.

Lemma chunks_one (b : list Z) : length b = 8%nat -> Spec.chunks 8 b = [b].
Proof.
  intros Hb. unfold Spec.chunks. rewrite Hb.
  change (8 / 8)%nat with 1%nat. simpl seq. simpl map.
  rewrite drop_0, firstn_all2 by lia. reflexivity.
Qed.

End Injectivity.

(** ** Further properties of the code *)

Section More.

Lemma Ok_pair_inj {A : Type} (a c : A) (b d : heap) :
  Ok (a, b) = Ok (c, d) -> a = c /\ b = d.
Proof. intros [= -> ->]. split; reflexivity. Qed.

Lemma words_spec (data : list byte) :
  words data
  = Ok (Spec.word_stream (Spec.padded_buffer (map Z_of_byte data))).
Proof.
  destruct (words_run data) as (buf & l & _ & _ & _ & Hspec & Hws).
  rewrite <- Hspec. exact Hws.
Qed.

Lemma words_length (data : list byte) :
  length (Spec.word_stream (Spec.padded_buffer (map Z_of_byte data)))
  = (8 * (length data / 64 + 1))%nat.
Proof.
  destruct (words_run data) as (buf & l & _ & _ & Hlen & Hspec & _).
  rewrite <- Hspec, word_stream_length, length_map, Hlen, padded_length.
  rewrite padLen_total.
  replace (64 * (length data / 64 + 1))%nat
    with ((8 * (length data / 64 + 1)) * 8)%nat by lia.
  apply Nat.div_mul. lia.
Qed.

Lemma final_state_unfold (rc iv ws : list Z) :
  Spec.final_state rc iv ws
  = Spec.permutation rc (Spec.absorb rc iv (Spec.chunks 8 ws)).
Proof. reflexivity. Qed.

Lemma absorb_one (rc st b : list Z) :
  Spec.absorb rc st [b] = Spec.permutation rc (Spec.xor_block st b).
Proof. reflexivity. Qed.

Lemma absorb_block_inj (s : ref) (h : heap) (st rc b1 b2 : list Z) :
  h !! s = Some st -> state16 st ->
  h !! RC = Some rc -> length rc = 12%nat -> Forall is_u64 rc -> s ≠ RC ->
  length b1 = 8%nat -> length b2 = 8%nat ->
  Forall is_u64 b1 -> Forall is_u64 b2 ->
  vortex_core_absorb s b1 h = vortex_core_absorb s b2 h -> b1 = b2.
Proof.
  intros Hs Hst Hrc Hlen Hu Hne L1 L2 U1 U2 E.
  destruct (absorb_run_state16 s h st rc b1 Hs Hst Hrc Hlen Hu U1 Hne)
    as [R1 _].
  destruct (absorb_run_state16 s h st rc b2 Hs Hst Hrc Hlen Hu U2 Hne)
    as [R2 _].
  rewrite R1, R2 in E. apply Ok_pair_inj in E. destruct E as [_ E].
  apply (f_equal (fun g : heap => g !! s)) in E.
  rewrite !list_lookup_insert_eq in E
    by (eapply lookup_lt_Some; exact Hs).
  injection E as E.
  rewrite !chunks_one, !absorb_one in E by assumption.
  destruct (permutation_bijective rc Hu) as (_ & Hinj & _).
  apply Hinj in E;
    [| apply xor_block_state16; assumption ..].
  eapply xor_block_inj; [apply Hst | | | exact E]; assumption.
Qed.

(** X1.  Rotations compose: rotating a 64-bit word by [a] and then by [b]
    is rotating it by [a + b], and rotating by [a] and then by [64 - a]
    gives the word back. *)
Theorem rotl_compose (x a b : Z) :
  is_u64 x ->
  rotl (rotl x a) b = rotl x (a + b) /\ rotl (rotl x a) (64 - a) = x.
Proof.
  intros Hx. split; [apply rotl_rotl, Hx |].
  rewrite rotl_rotl by exact Hx.
  replace (a + (64 - a)) with 64 by lia.
  rewrite <- rotl_mod64. change (64 mod 64) with 0. apply rotl_0, Hx.
Qed.

Lemma rotl_compose_witness :
  rotl (rotl 0x8000000000000001 3) 62 = rotl 0x8000000000000001 (3 + 62) /\
  rotl (rotl 0x8000000000000001 3) (64 - 3) = 0x8000000000000001.
Proof.
  apply (rotl_compose 0x8000000000000001 3 62). unfold is_u64. lia.
Defined.

(** X2.  The rotation in arithmetic: for a 64-bit word [x] and [k = r mod
    64], [rotl x r] is the low 64 bits of [x * 2^k] plus the [k] bits that
    left at the top, [x / 2^(64 - k)]. *)
Theorem rotl_arithmetic (x r : Z) :
  is_u64 x ->
  rotl x r = (x * 2 ^ (r mod 64)) mod 2 ^ 64 + x / 2 ^ (64 - r mod 64).
Proof. apply rotl_arith. Qed.

Lemma rotl_arithmetic_witness :
  rotl 0x8000000000000001 65
  = (0x8000000000000001 * 2 ^ (65 mod 64)) mod 2 ^ 64
    + 0x8000000000000001 / 2 ^ (64 - 65 mod 64).
Proof.
  apply (rotl_arithmetic 0x8000000000000001 65). unfold is_u64. lia.
Defined.

(** X3.  The rotation distributes over XOR on 64-bit words. *)
Theorem rotl_xor (x y r : Z) :
  is_u64 x -> is_u64 y ->
  rotl (Z.lxor x y) r = Z.lxor (rotl x r) (rotl y r).
Proof. apply rotl_lxor. Qed.

Lemma rotl_xor_witness :
  rotl (Z.lxor 0x8000000000000001 0xff) 7
  = Z.lxor (rotl 0x8000000000000001 7) (rotl 0xff 7).
Proof.
  apply (rotl_xor 0x8000000000000001 0xff 7); unfold is_u64; lia.
Defined.

(** X4.  In every round the butterfly partners are a rearrangement of the
    lanes: the partner of a lane is a lane, and two different lanes never
    have the same partner. *)
Theorem target_injective (r i j : nat) :
  (i < 16)%nat -> (j < 16)%nat ->
  (target r i < 16)%nat /\ (target r i = target r j -> i = j).
Proof.
  intros Hi Hj. split; [apply target_lt |].
  destruct (target_cases r i Hi) as [Ho Ci].
  destruct (target_cases r j Hj) as [_ Cj].
  pose proof (target_lt r i). pose proof (target_lt r j). lia.
Qed.

Lemma target_injective_witness :
  (target 3 0 < 16)%nat /\ (target 3 0 = target 3 15 -> 0%nat = 15%nat).
Proof. apply (target_injective 3 0 15); lia. Defined.

(** X5.  The absorbing loop ignores an incomplete last block: up to 7
    words after a whole number of 8-word blocks change nothing, on any
    heap. *)
Theorem absorb_ignores_partial_block (s : ref) (ws tail : list Z) (h : heap) :
  (length ws mod 8 = 0)%nat -> (length tail < 8)%nat ->
  vortex_core_absorb s (ws ++ tail) h = vortex_core_absorb s ws h.
Proof. intros Hws Htail. apply absorb_trailing; assumption. Qed.

Lemma absorb_ignores_partial_block_witness :
  vortex_core_absorb 2%nat (repeat 5 8 ++ [1; 2; 3]) working_heap
  = vortex_core_absorb 2%nat (repeat 5 8) working_heap.
Proof.
  apply (absorb_ignores_partial_block 2%nat (repeat 5 8) [1; 2; 3]
           working_heap).
  - reflexivity.
  - simpl. lia.
Defined.

(** X6.  Absorbing is incremental: after a whole number of blocks,
    absorbing the rest of the words is a second call on the state the first
    call left, on any heap. *)
Theorem absorb_concatenation (s : ref) (ws1 ws2 : list Z) (h : heap) :
  (length ws1 mod 8 = 0)%nat ->
  vortex_core_absorb s (ws1 ++ ws2) h
  = (vortex_core_absorb s ws1 ;; vortex_core_absorb s ws2) h.
Proof. intros Hws. apply absorb_app, Hws. Qed.

Lemma absorb_concatenation_witness :
  vortex_core_absorb 2%nat (repeat 5 8 ++ repeat 7 8) working_heap
  = (vortex_core_absorb 2%nat (repeat 5 8) ;;
     vortex_core_absorb 2%nat (repeat 7 8)) working_heap.
Proof.
  apply (absorb_concatenation 2%nat (repeat 5 8) (repeat 7 8) working_heap).
  reflexivity.
Defined.





(** X9.  On a heap where the state is a 16-lane array of 64-bit words and
    [RC] holds 12 such words, the absorbing loop raises nothing for any
    list of 64-bit words; it leaves the state the specification's
    absorption gives, block by block, and that state is again 16 lanes of
    64-bit words. *)
Theorem absorb_refines (s : ref) (h : heap) (st rc ws : list Z) :
  h !! s = Some st -> state16 st ->
  h !! RC = Some rc -> length rc = 12%nat -> Forall is_u64 rc ->
  Forall is_u64 ws -> s ≠ RC ->
  vortex_core_absorb s ws h
  = Ok (tt, <[s := Spec.absorb rc st (Spec.chunks 8 ws)]> h) /\
  state16 (Spec.absorb rc st (Spec.chunks 8 ws)).
Proof. apply absorb_run_state16. Qed.

Lemma absorb_refines_witness :
  vortex_core_absorb 2%nat (repeat 5 8) working_heap
  = Ok (tt, <[2%nat := Spec.absorb RC_array VORTEX_IV_array
                         (Spec.chunks 8 (repeat 5 8))]> working_heap) /\
  state16 (Spec.absorb RC_array VORTEX_IV_array (Spec.chunks 8 (repeat 5 8))).
Proof.
  apply (absorb_refines 2%nat working_heap VORTEX_IV_array RC_array
           (repeat 5 8)).
  - reflexivity.
  - split; [reflexivity |].
    unfold VORTEX_IV_array. repeat constructor; unfold is_u64; lia.
  - reflexivity.
  - reflexivity.
  - unfold RC_array. repeat constructor; unfold is_u64; lia.
  - simpl. repeat constructor; unfold is_u64; lia.
  - unfold RC. lia.
Defined.

(** X10.  An input of [n] bytes gives [8 * (n / 64 + 1)] words, that is
    [n / 64 + 1] blocks: always at least one, and one more than the input
    fills when its length is a multiple of 64. *)
Theorem word_count (data : list byte) :
  exists ws : list Z,
    words data = Ok ws /\
    length ws = (8 * (length data / 64 + 1))%nat /\
    (length ws / 8 = length data / 64 + 1)%nat.
Proof.
  exists (Spec.word_stream (Spec.padded_buffer (map Z_of_byte data))).
  split; [apply words_spec |]. rewrite words_length.
  split; [reflexivity |].
  rewrite Nat.mul_comm. apply Nat.div_mul. lia.
Qed.

(** X11.  The padding leaves the bytes of the message as they are and
    appends a suffix that depends on the length of the message only: the
    single byte [0x86] when [(len + 1) mod 64 = 0], otherwise [0x06], then
    zero bytes, then [0x80]. *)
Theorem padded_buffer_closed_form (x : list byte) :
  (p_list x ≫= bytes)
  = Ok (x ++ match Spec.padLen (length x) with
             | O => [x86]
             | S k => x06 :: repeat x00 k ++ [x80]
             end) /\
  (Spec.padLen (length x) = 0%nat <-> ((length x + 1) mod 64 = 0)%nat) /\
  (length x + 1 + Spec.padLen (length x) = 64 * (length x / 64 + 1))%nat.
Proof.
  split; [apply buffer_form |].
  split; [apply padLen_zero_iff | apply padLen_total].
Qed.

(** X12.  The padding and the conversion to words lose nothing: two
    inputs with the same word stream are the same input. *)
Theorem word_stream_determines_input (x y : list byte) :
  words x = words y -> x = y.
Proof. apply words_inj. Qed.

Lemma word_stream_determines_input_witness : [x61; x06] = [x61; x06].
Proof.
  apply (word_stream_determines_input [x61; x06] [x61; x06]). reflexivity.
Defined.

(** X13.  The digest text loses nothing either: two lists of 64-bit lanes
    that format to the same string are the same list. *)
Theorem digest_text_determines_lanes (l1 l2 : list Z) :
  Forall is_u64 l1 -> Forall is_u64 l2 ->
  String.concat ""%string (map format_016x l1)
  = String.concat ""%string (map format_016x l2) ->
  l1 = l2.
Proof.
  intros H1 H2 E. apply (f_equal String.list_ascii_of_string) in E.
  rewrite !join_format in E by assumption.
  apply concat_hex16_inj; assumption.
Qed.

Lemma digest_text_determines_lanes_witness : [1; 255] = [1; 255].
Proof.
  apply (digest_text_determines_lanes [1; 255] [1; 255]).
  - repeat constructor; unfold is_u64; lia.
  - repeat constructor; unfold is_u64; lia.
  - reflexivity.
Defined.

(** X14.  Absorbing one block never merges two blocks: from the same
    16-lane state, two different blocks of eight 64-bit words leave
    different states. *)
Theorem absorb_block_injective (s : ref) (h : heap) (st b1 b2 : list Z) :
  h !! s = Some st -> state16 st ->
  h !! RC = Some RC_array -> s ≠ RC ->
  length b1 = 8%nat -> length b2 = 8%nat ->
  Forall is_u64 b1 -> Forall is_u64 b2 ->
  vortex_core_absorb s b1 h = vortex_core_absorb s b2 h -> b1 = b2.
Proof.
  intros Hs Hst Hrc Hne L1 L2 U1 U2 E.
  exact (absorb_block_inj s h st RC_array b1 b2 Hs Hst Hrc eq_refl RC_u64
           Hne L1 L2 U1 U2 E).
Qed.

Lemma absorb_block_injective_witness : repeat 5 8 = repeat 5 8.
Proof.
  apply (absorb_block_injective 2%nat working_heap VORTEX_IV_array
           (repeat 5 8) (repeat 5 8)).
  - reflexivity.
  - split; [reflexivity |].
    unfold VORTEX_IV_array. repeat constructor; unfold is_u64; lia.
  - reflexivity.
  - unfold RC. lia.
  - reflexivity.
  - reflexivity.
  - simpl. repeat constructor; unfold is_u64; lia.
  - simpl. repeat constructor; unfold is_u64; lia.
  - reflexivity.
Defined.

Lemma squeezed_short_inj (iv rc : list Z) (x y : list byte) :
  state16 iv -> Forall is_u64 rc ->
  (length x < 64)%nat -> (length y < 64)%nat ->
  squeezed iv rc x = squeezed iv rc y -> x = y.
Proof.
  intros Hiv Hu Hx Hy E. apply words_inj. rewrite !words_spec. f_equal.
  rewrite !squeezed_unfold, !final_state_unfold in E.
  assert (Hone : forall d : list byte, (length d < 64)%nat ->
            length (Spec.word_stream
                      (Spec.padded_buffer (map Z_of_byte d))) = 8%nat).
  { intros d Hd. rewrite words_length, Nat.div_small by exact Hd.
    reflexivity. }
  assert (Hu64 : forall d : list byte,
            Forall is_u64
              (Spec.word_stream (Spec.padded_buffer (map Z_of_byte d)))).
  { intros d. destruct (words_run d) as (buf & l & _ & _ & _ & <- & _).
    apply word_stream_u64. }
  rewrite !chunks_one, !absorb_one in E by (apply Hone; assumption).
  destruct (permutation_bijective rc Hu) as (Hwf & Hinj & _).
  assert (Hst : forall d : list byte, (length d < 64)%nat ->
            state16 (Spec.xor_block iv
                       (Spec.word_stream
                          (Spec.padded_buffer (map Z_of_byte d))))).
  { intros d Hd. apply xor_block_state16; [exact Hiv | apply Hone, Hd |].
    apply Hu64. }
  apply Hinj in E; [| apply Hwf, Hst; assumption ..].
  apply Hinj in E; [| apply Hst; assumption ..].
  eapply xor_block_inj; [apply Hiv | | | exact E]; apply Hone; assumption.
Qed.

Lemma short_state_inj (iv rc : list Z) (x y : list byte) (h : heap)
    (dx dy : String.string) (final : list Z) :
  state16 iv -> length rc = 12%nat -> Forall is_u64 rc ->
  h !! VORTEX_IV = Some iv -> h !! RC = Some rc ->
  (length x < 64)%nat -> (length y < 64)%nat ->
  vortex_v512_v1 x h = Ok (dx, h ++ [final]) ->
  vortex_v512_v1 y h = Ok (dy, h ++ [final]) ->
  x = y.
Proof.
  intros Hst Hlen Hu Hiv Hrc Hx Hy Rx Ry.
  rewrite (vortex_v512_v1_run iv rc (proj1 Hst) Hlen x h Hiv Hrc) in Rx.
  rewrite (vortex_v512_v1_run iv rc (proj1 Hst) Hlen y h Hiv Hrc) in Ry.
  apply Ok_pair_inj in Rx, Ry.
  destruct Rx as [_ Rx], Ry as [_ Ry].
  apply app_inj_tail in Rx, Ry. destruct Rx as [_ Rx], Ry as [_ Ry].
  apply (squeezed_short_inj iv rc); [assumption .. | congruence].
Qed.

(** X15.  For inputs shorter than 64 bytes nothing is lost before the
    digest is cut out of the state: two calls that leave the same final
    16-lane state were given the same input. *)
Theorem short_input_state_injective (x y : list byte) (h : heap)
    (dx dy : String.string) (final : list Z) :
  imported h -> (length x < 64)%nat -> (length y < 64)%nat ->
  vortex_v512_v1 x h = Ok (dx, h ++ [final]) ->
  vortex_v512_v1 y h = Ok (dy, h ++ [final]) ->
  x = y.
Proof.
  intros [Hiv Hrc] Hx Hy Rx Ry.
  exact (short_state_inj VORTEX_IV_array RC_array x y h dx dy final
           VORTEX_IV_state16 eq_refl RC_u64 Hiv Hrc Hx Hy Rx Ry).
Qed.

Lemma short_input_state_injective_witness : [x61] = [x61].
Proof.
  apply (short_input_state_injective [x61] [x61] module_heap
           (String.concat ""%string
              (map format_016x
                 (take 8 (squeezed VORTEX_IV_array RC_array [x61]))))
           (String.concat ""%string
              (map format_016x
                 (take 8 (squeezed VORTEX_IV_array RC_array [x61]))))
           (squeezed VORTEX_IV_array RC_array [x61])).
  - split; reflexivity.
  - simpl. lia.
  - simpl. lia.
  - exact (imported_run [x61] module_heap imported_module_heap).
  - exact (imported_run [x61] module_heap imported_module_heap).
Defined.

End More.
